(** * Best-first search (A*, weighted A*, greedy best-first) of [search/a_star.py]

    A shallow embedding of the search loop of [src/search/a_star.py] and the
    properties its specification states about it.

    Conventions of the embedding.
    - Python integers that count operators ([g], the tiebreaker, the counters)
      are [nat]; heuristic values and priority keys are integers extended with
      [float("inf")] (type [num]).
    - The dictionary [state_cost] is a [gmap State nat].
    - The list [open], used through [heapq], is a list of entries from which
      [heappop] removes the least entry for Python's tuple comparison.
    - The [while] loop is a function with a fuel argument: [None] means that
      the fuel ran out, [Some r] that Python returns [r].
    - The log line before the loop formats the heuristic value of the root
      as a float, which raises [OverflowError] for an integer that has no
      float. [astar_search] is the search that follows this line;
      [astar_search_call] is the call as a whole, which ends either with an
      exception or with a returned value. *)

From Stdlib Require Import ZArith Lia List Permutation.
From stdpp Require Import base option list gmap fin_maps fin_sets.

Local Open Scope Z_scope.
Local Open Scope nat_scope.

(** ** Numbers: Python integers and [float("inf")] *)

Inductive num : Type :=
| Fin (z : Z)
| Inf.

Definition num_eqb (a b : num) : bool :=
  match a, b with
  | Fin x, Fin y => (x =? y)%Z
  | Inf, Inf => true
  | _, _ => false
  end.

Definition num_ltb (a b : num) : bool :=
  match a, b with
  | Fin x, Fin y => (x <? y)%Z
  | Fin _, Inf => true
  | Inf, _ => false
  end.

Definition num_leb (a b : num) : bool := negb (num_ltb b a).

Definition num_add (a b : num) : num :=
  match a, b with
  | Fin x, Fin y => Fin (x + y)
  | _, _ => Inf
  end.

(** [weight * h] for a weight of at least one. *)
Definition num_scale (weight : positive) (h : num) : num :=
  match h with
  | Fin y => Fin (Z.pos weight * y)
  | Inf => Inf
  end.

Definition of_nat (n : nat) : num := Fin (Z.of_nat n).

(** ** Formatting a number as a float *)

(** An exception that ends a call. *)
Inductive exn : Type := OverflowError.

(** The least magnitude of an integer without a float: from here on
    [float(n)] would round to [2^1024]. *)
Definition float_overflow : Z := 2 ^ 1024 - 2 ^ 970.

(** [float(x)] is defined: [x] is [float("inf")] or an integer of a
    magnitude below [float_overflow]. *)
Definition fits_float (x : num) : bool :=
  match x with
  | Fin z => (Z.abs z <? float_overflow)%Z
  | Inf => true
  end.

(** ["%f" % x]: the number is converted to a float and then written; the
    conversion raises [OverflowError] for an integer that is too large.
    [None] means that nothing is raised (the text itself is only logged). *)
Definition format_float (x : num) : option exn :=
  if fits_float x then None else Some OverflowError.

Section Search.

Context {State : Type} {State_eq : EqDecision State}
  {State_countable : Countable State} {Operator : Type}.

(** ** The collaborators *)

(** The planning task: [task.initial_state], [task.goal_reached(state)] and
    [task.get_successor_states(state)]. *)
Record Task : Type := mkTask {
  initial_state : State;
  goal_reached : State -> bool;
  get_successor_states : State -> list (Operator * State)
}.

(** Modelled from the spec: the module [searchspace] ([SearchNode],
    [make_root_node], [make_child_node], [extract_solution]) is imported by
    [a_star.py] but is not part of the sources at hand. A search node has a
    state, a parent (none for the root), the operator that produced it (none
    for the root) and the path cost [g], the number of operators applied. *)
#[local] Unset Elimination Schemes.
Inductive SearchNode : Type :=
  mkSearchNode {
    state : State;
    parent : option SearchNode;
    action : option Operator;
    g : nat
  }.
#[local] Set Elimination Schemes.

(** Modelled from the spec: the root node has no parent, no operator and
    [g = 0]. *)
Definition make_root_node (s : State) : SearchNode :=
  mkSearchNode s None None 0.

(** Modelled from the spec: a child node refers to its parent, carries the
    operator and the successor state, and costs one operator more. *)
Definition make_child_node (parent_node : SearchNode) (op : Operator)
    (s : State) : SearchNode :=
  mkSearchNode s (Some parent_node) (Some op) (g parent_node + 1).

(** Modelled from the spec: the operator sequence from the root to the node,
    by walking the parent references and reversing. *)
Fixpoint extract_solution (node : SearchNode) : list Operator :=
  match parent node with
  | None => []
  | Some p =>
      extract_solution p ++
        match action node with Some op => [op] | None => [] end
  end.

(** ** Frontier entries and the ordering policies *)

(** The tuple [(f, h, node_tiebreaker, node)]. *)
Definition OpenEntry : Type := num * num * nat * SearchNode.

Definition entry_f (e : OpenEntry) : num := e.1.1.1.
Definition entry_h (e : OpenEntry) : num := e.1.1.2.
Definition entry_tie (e : OpenEntry) : nat := e.1.2.
Definition entry_node (e : OpenEntry) : SearchNode := e.2.

Definition ordered_node_astar (node : SearchNode) (h : num)
    (node_tiebreaker : nat) : OpenEntry :=
  let f := num_add (of_nat (g node)) h in
  (f, h, node_tiebreaker, node).

Definition ordered_node_weighted_astar (weight : positive)
    : SearchNode -> num -> nat -> OpenEntry :=
  fun node h node_tiebreaker =>
    (num_add (of_nat (g node)) (num_scale weight h), h, node_tiebreaker, node).

Definition ordered_node_greedy_best_first (node : SearchNode) (h : num)
    (node_tiebreaker : nat) : OpenEntry :=
  let f := h in
  (f, h, node_tiebreaker, node).

(** Python's [<] on two such tuples: the first component where the tuples
    differ decides. Were [f], [h] and the tiebreaker all equal, Python would
    go on to compare the nodes; the tiebreakers of the entries of one search
    are pairwise distinct ([tiebreakers_distinct] below), so that the
    comparison never gets there. *)
Definition entry_ltb (a b : OpenEntry) : bool :=
  let '(fa, ha, ta, _) := a in
  let '(fb, hb, tb, _) := b in
  if negb (num_eqb fa fb) then num_ltb fa fb
  else if negb (num_eqb ha hb) then num_ltb ha hb
  else if negb (Nat.eqb ta tb) then Nat.ltb ta tb
  else false.

(** ** The heap

    [heapq] keeps the list [open] as a binary heap; what the search relies on
    is that [heappush] adds an entry and [heappop] removes a least one. *)
Definition heappush (open : list OpenEntry) (e : OpenEntry) : list OpenEntry :=
  e :: open.

Fixpoint heappop (open : list OpenEntry) : option (OpenEntry * list OpenEntry) :=
  match open with
  | [] => None
  | x :: l =>
      match heappop l with
      | None => Some (x, [])
      | Some (m, rest) =>
          if entry_ltb m x then Some (m, x :: rest) else Some (x, l)
      end
  end.

(** ** The search loop *)

(** The local variables of [astar_search] that change in the loop.
    [pushed] is a history variable that is not in the source: the nodes
    handed to [heappush] so far, latest first. Nothing reads it. *)
Record LoopState : Type := mkLoopState {
  state_cost : gmap State nat;
  node_tiebreaker : nat;
  open : list OpenEntry;
  besth : num;
  counter : nat;
  expansions : nat;
  pushed : list SearchNode
}.

Definition set_open (st : LoopState) (o : list OpenEntry) : LoopState :=
  mkLoopState (state_cost st) (node_tiebreaker st) o (besth st)
    (counter st) (expansions st) (pushed st).

Definition set_besth (st : LoopState) (b : num) : LoopState :=
  mkLoopState (state_cost st) (node_tiebreaker st) (open st) b
    (counter st) (expansions st) (pushed st).

Definition incr_expansions (st : LoopState) : LoopState :=
  mkLoopState (state_cost st) (node_tiebreaker st) (open st) (besth st)
    (counter st) (expansions st + 1) (pushed st).

Definition incr_counter (st : LoopState) : LoopState :=
  mkLoopState (state_cost st) (node_tiebreaker st) (open st) (besth st)
    (counter st + 1) (expansions st) (pushed st).

(** [if h < besth: besth = h] *)
Definition update_besth (st : LoopState) (h : num) : LoopState :=
  if num_ltb h (besth st) then set_besth st h else st.

(** [state_cost.get(s, float("inf"))] *)
Definition cost_get (cost : gmap State nat) (s : State) : num :=
  match cost !! s with
  | Some c => of_nat c
  | None => Inf
  end.

Section Loop.

Variable task : Task.
Variable heuristic : SearchNode -> num.
Variable make_open_entry : SearchNode -> num -> nat -> OpenEntry.

(** One round of the [for] loop over the successors (step 6 and 7). *)
Definition expand_successor (pop_node : SearchNode) (pop_g : nat)
    (st : LoopState) (succ : Operator * State) : LoopState :=
  let '(op, new_state) := succ in
  let new_g := pop_g + 1 in
  let neighbor_node := make_child_node pop_node op new_state in
  let h_neighbor := heuristic neighbor_node in
  if num_eqb h_neighbor Inf then st
  else
    if match state_cost st !! new_state with
       | None => true
       | Some c => new_g <? c
       end
    then
      let tie := node_tiebreaker st + 1 in
      let entry := make_open_entry neighbor_node h_neighbor tie in
      mkLoopState (<[new_state := new_g]> (state_cost st)) tie
        (heappush (open st) entry) (besth st) (counter st) (expansions st)
        (entry_node entry :: pushed st)
    else st.

(** What one round of the [while] loop does after the pop. *)
Inductive outcome : Type :=
| Return (solution : list Operator)
| Continue (st : LoopState).

(** The body of the [while] loop, for the popped entry and the state in
    which [open] has lost that entry. *)
Definition loop_body (st : LoopState) (popped : OpenEntry) : outcome :=
  let '(f, h, _tie, pop_node) := popped in
  let st := update_besth st h in
  let pop_state := state pop_node in
  let pop_g := g pop_node in
  if num_ltb (cost_get (state_cost st) pop_state) (of_nat pop_g) then
    Continue st
  else
    let st := incr_expansions st in
    if goal_reached task pop_state then
      Return (extract_solution pop_node)
    else
      let st :=
        fold_left (expand_successor pop_node pop_g)
          (get_successor_states task pop_state) st in
      Continue (incr_counter st).

(** [while open: ...] followed by [return None]. *)
Fixpoint astar_loop (fuel : nat) (st : LoopState)
    : option (option (list Operator)) :=
  match fuel with
  | O => None
  | S fuel' =>
      match heappop (open st) with
      | None => Some None
      | Some (popped, rest) =>
          match loop_body (set_open st rest) popped with
          | Return solution => Some (Some solution)
          | Continue st' => astar_loop fuel' st'
          end
      end
  end.

(** The state at the head of the loop after [n] complete rounds, none of
    which has returned. *)
Fixpoint iterate_loop (n : nat) (st : LoopState) : option LoopState :=
  match n with
  | O => Some st
  | S n' =>
      match heappop (open st) with
      | None => None
      | Some (popped, rest) =>
          match loop_body (set_open st rest) popped with
          | Return _ => None
          | Continue st' => iterate_loop n' st'
          end
      end
  end.

(** *** The same loop, one statement group at a time

    The program points of [astar_search] between which the local variables
    are observed: the head of the [while] loop, the head of the [for] loop
    (with the successors still to come), and the return. *)
Inductive config : Type :=
| AtHead (st : LoopState)
| InFor (st : LoopState) (pop_node : SearchNode)
    (todo : list (Operator * State))
| Finished (result : option (list Operator)).

Definition exec_step (c : config) : option config :=
  match c with
  | AtHead st =>
      match heappop (open st) with
      | None => Some (Finished None)
      | Some ((f, h, _tie, pop_node), rest) =>
          let st := set_open st rest in
          let st := update_besth st h in
          let pop_state := state pop_node in
          let pop_g := g pop_node in
          if num_ltb (cost_get (state_cost st) pop_state) (of_nat pop_g) then
            Some (AtHead st)
          else
            let st := incr_expansions st in
            if goal_reached task pop_state then
              Some (Finished (Some (extract_solution pop_node)))
            else
              Some (InFor st pop_node (get_successor_states task pop_state))
      end
  | InFor st pop_node [] => Some (AtHead (incr_counter st))
  | InFor st pop_node (succ :: todo) =>
      Some (InFor (expand_successor pop_node (g pop_node) st succ)
              pop_node todo)
  | Finished _ => None
  end.

Definition exec (c c' : config) : Prop := exec_step c = Some c'.

(** The state in which the loop is entered. *)
Definition initial_loop_state : LoopState :=
  let root := make_root_node (initial_state task) in
  let state_cost := {[ initial_state task := 0 ]} in
  let node_tiebreaker := 0 in
  let init_h := heuristic root in
  let entry := make_open_entry root init_h node_tiebreaker in
  mkLoopState state_cost node_tiebreaker (heappush [] entry) Inf 0 0
    [entry_node entry].

(** The program points that an execution of [astar_search] goes through. *)
Definition exec_point (c : config) : Prop :=
  rtc exec (AtHead initial_loop_state) c.

(** The local variables at a program point, when the search has not yet
    returned. *)
Definition config_state (c : config) : option LoopState :=
  match c with
  | AtHead st => Some st
  | InFor st _ _ => Some st
  | Finished _ => None
  end.

End Loop.

(** [astar_search(task, heuristic, make_open_entry=ordered_node_astar,
    use_relaxed_plan=False)]; an argument left out is [None]. This is the
    search from the loop on: the value that a call returns once the log line
    before the loop (line 168) has been passed. The call with that line is
    [astar_search_call] below. *)
Definition astar_search (fuel : nat) (task : Task)
    (heuristic : SearchNode -> num)
    (make_open_entry : option (SearchNode -> num -> nat -> OpenEntry))
    (use_relaxed_plan : option bool) : option (option (list Operator)) :=
  let make_open_entry := default ordered_node_astar make_open_entry in
  let use_relaxed_plan := default false use_relaxed_plan in
  let use_relaxed_plan := false in
  astar_loop task heuristic make_open_entry fuel
    (initial_loop_state task heuristic make_open_entry).

Definition greedy_best_first_search (fuel : nat) (task : Task)
    (heuristic : SearchNode -> num) (use_relaxed_plan : option bool)
    : option (option (list Operator)) :=
  let use_relaxed_plan := default false use_relaxed_plan in
  astar_search fuel task heuristic (Some ordered_node_greedy_best_first)
    (Some use_relaxed_plan).

Definition weighted_astar_search (fuel : nat) (task : Task)
    (heuristic : SearchNode -> num) (weight : option positive)
    (use_relaxed_plan : option bool) : option (option (list Operator)) :=
  let weight := default 5%positive weight in
  let use_relaxed_plan := default false use_relaxed_plan in
  astar_search fuel task heuristic (Some (ordered_node_weighted_astar weight))
    (Some use_relaxed_plan).

(** ** The call as a whole *)

(** How a call ends: with an exception or with the value it returns. *)
Inductive call_result : Type :=
  | Raised (e : exn)
  | Returned (result : option (list Operator)).

(** A call of [astar_search]. After the root has been pushed its heuristic
    value is logged with ["Initial h value: %f" % init_h] (line 168); if
    this raises, the call ends there, before the loop. Nothing else in the
    function raises on the numbers of the embedding: the other log lines
    format integers with [%d]. *)
Definition astar_search_call (fuel : nat) (task : Task)
    (heuristic : SearchNode -> num)
    (make_open_entry : option (SearchNode -> num -> nat -> OpenEntry))
    (use_relaxed_plan : option bool) : option call_result :=
  let root := make_root_node (initial_state task) in
  let init_h := heuristic root in
  match format_float init_h with
  | Some e => Some (Raised e)
  | None =>
      Returned <$>
        astar_search fuel task heuristic make_open_entry use_relaxed_plan
  end.

Definition greedy_best_first_search_call (fuel : nat) (task : Task)
    (heuristic : SearchNode -> num) (use_relaxed_plan : option bool)
    : option call_result :=
  let use_relaxed_plan := default false use_relaxed_plan in
  astar_search_call fuel task heuristic (Some ordered_node_greedy_best_first)
    (Some use_relaxed_plan).

Definition weighted_astar_search_call (fuel : nat) (task : Task)
    (heuristic : SearchNode -> num) (weight : option positive)
    (use_relaxed_plan : option bool) : option call_result :=
  let weight := default 5%positive weight in
  let use_relaxed_plan := default false use_relaxed_plan in
  astar_search_call fuel task heuristic
    (Some (ordered_node_weighted_astar weight)) (Some use_relaxed_plan).

(** The heuristic value of the root can be logged: it is [+infinity] or an
    integer of a magnitude below [2^1024 - 2^970]. *)
Definition initial_h_fits (task : Task) (heuristic : SearchNode -> num)
    : Prop :=
  fits_float (heuristic (make_root_node (initial_state task))) = true.

(** ** The vocabulary of the specification *)

Definition num_le (a b : num) : Prop := num_leb a b = true.

(** [path task s ops s']: applying the operators [ops] in turn leads from
    [s] to [s']. *)
Inductive path (task : Task) : State -> list Operator -> State -> Prop :=
| path_nil s : path task s [] s
| path_cons s op s' ops s'' :
    (op, s') ∈ get_successor_states task s ->
    path task s' ops s'' ->
    path task s (op :: ops) s''.

Definition solves (task : Task) (ops : list Operator) : Prop :=
  exists sg, path task (initial_state task) ops sg /\
             goal_reached task sg = true.

Definition solvable (task : Task) : Prop := exists ops, solves task ops.

Definition reachable (task : Task) (s : State) : Prop :=
  exists ops, path task (initial_state task) ops s.

Definition can_reach_goal (task : Task) (s : State) : Prop :=
  exists ops sg, path task s ops sg /\ goal_reached task sg = true.

(** The reachable state space is finite. *)
Definition finite_reachable (task : Task) : Prop :=
  exists l : list State, forall s, reachable task s -> s ∈ l.

(** The heuristic never overestimates the number of operators still needed
    to reach a goal. *)
Definition admissible (task : Task) (heuristic : SearchNode -> num) : Prop :=
  forall node ops sg,
    path task (state node) ops sg -> goal_reached task sg = true ->
    num_le (heuristic node) (of_nat (length ops)).

(** The estimate drops by at most the cost of the operator, one, from a node
    to its child. *)
Definition consistent (task : Task) (heuristic : SearchNode -> num) : Prop :=
  forall node op s,
    (op, s) ∈ get_successor_states task (state node) ->
    num_le (heuristic node)
      (num_add (Fin 1) (heuristic (make_child_node node op s))).

(** The contract of the heuristic: a non-negative number or [+infinity]. *)
Definition nonnegative (heuristic : SearchNode -> num) : Prop :=
  forall node, num_le (Fin 0) (heuristic node).

(** An ordering policy chooses the priority key and leaves the other three
    components of the entry as they are given. *)
Definition ordering_policy
    (make_open_entry : SearchNode -> num -> nat -> OpenEntry) : Prop :=
  forall node h tie,
    entry_h (make_open_entry node h tie) = h /\
    entry_tie (make_open_entry node h tie) = tie /\
    entry_node (make_open_entry node h tie) = node.

(** Lexicographic order on [(f, h, tiebreaker)]. *)
Definition entry_lex_lt (a b : OpenEntry) : Prop :=
  num_ltb (entry_f a) (entry_f b) = true \/
  (entry_f a = entry_f b /\
   (num_ltb (entry_h a) (entry_h b) = true \/
    (entry_h a = entry_h b /\ entry_tie a < entry_tie b))).

(** ** Invariants of the loop *)

(** The node stands for a real path: its operator sequence leads from the
    initial state to its state and has [g] operators. *)
Definition node_ok (task : Task) (node : SearchNode) : Prop :=
  path task (initial_state task) (extract_solution node) (state node) /\
  length (extract_solution node) = g node.

(** The node is the root or a child, made from a successor of its parent's
    state, whose heuristic value is finite. *)
Definition generated (task : Task) (heuristic : SearchNode -> num)
    (node : SearchNode) : Prop :=
  node = make_root_node (initial_state task) \/
  exists p op,
    node = make_child_node p op (state node) /\
    (op, state node) ∈ get_successor_states task (state p) /\
    heuristic node <> Inf.

Record search_inv (task : Task) (heuristic : SearchNode -> num)
    (make_open_entry : SearchNode -> num -> nat -> OpenEntry)
    (st : LoopState) : Prop := mkSearchInv {
  inv_root : make_root_node (initial_state task) ∈ pushed st;
  inv_pushed_ok : forall node, node ∈ pushed st -> node_ok task node;
  inv_pushed_gen :
    forall node, node ∈ pushed st -> generated task heuristic node;
  inv_open :
    forall e, e ∈ open st ->
      entry_node e ∈ pushed st /\
      entry_tie e <= node_tiebreaker st /\
      e = make_open_entry (entry_node e)
            (heuristic (entry_node e)) (entry_tie e);
  inv_ties : NoDup (entry_tie <$> open st);
  inv_cost_some :
    forall s c, state_cost st !! s = Some c ->
      exists node, node ∈ pushed st /\ state node = s /\ g node = c;
  inv_cost_min :
    forall node, node ∈ pushed st ->
      exists c, state_cost st !! state node = Some c /\ c <= g node
}.

Definition config_inv (task : Task) (heuristic : SearchNode -> num)
    (make_open_entry : SearchNode -> num -> nat -> OpenEntry)
    (c : config) : Prop :=
  match c with
  | AtHead st => search_inv task heuristic make_open_entry st
  | InFor st pop_node todo =>
      search_inv task heuristic make_open_entry st /\
      pop_node ∈ pushed st /\
      exists done, get_successor_states task (state pop_node) = done ++ todo
  | Finished _ => True
  end.

(** The successors in [l] of a state [s] of cost [c] have been dealt with:
    those from which a goal can be reached are in the table at [c + 1] or
    less. *)
Definition expanded_upto (task : Task) (cost : gmap State nat)
    (s : State) (c : nat) (l : list (Operator * State)) : Prop :=
  goal_reached task s = false /\
  forall op s', (op, s') ∈ l -> can_reach_goal task s' ->
    exists c', cost !! s' = Some c' /\ c' <= c + 1.

(** Every state of the table waits in the frontier at its recorded cost or
    has been expanded at it; [s0], at cost [c0], is being expanded and the
    successors [done] have been dealt with. *)
Definition open_or_closed (task : Task) (st : LoopState)
    (current : option (State * nat * list (Operator * State))) : Prop :=
  forall s c, state_cost st !! s = Some c ->
    (exists e, e ∈ open st /\ state (entry_node e) = s /\
               g (entry_node e) = c) \/
    expanded_upto task (state_cost st) s c (get_successor_states task s) \/
    (exists done, current = Some (s, c, done) /\
                  expanded_upto task (state_cost st) s c done).

(** ** The termination measure *)

Definition cost_sum (cost : gmap State nat) : nat :=
  map_fold (fun _ c acc => c + acc) 0 cost.

Definition absent (l : gset State) (cost : gmap State nat) : nat :=
  size (l ∖ dom cost).

(** Lexicographic: states of [l] not yet in the table, then the sum of the
    recorded costs. *)
Definition cost_lt (l : gset State) (cost' cost : gmap State nat) : Prop :=
  absent l cost' < absent l cost \/
  (absent l cost' = absent l cost /\ cost_sum cost' < cost_sum cost).

(** ... then the length of the frontier. *)
Definition measure_lt (l : gset State) (st' st : LoopState) : Prop :=
  cost_lt l (state_cost st') (state_cost st) \/
  (state_cost st' = state_cost st /\ length (open st') < length (open st)).

(** The states at most [n] operators away from the initial state. *)
Fixpoint within (task : Task) (n : nat) : list State :=
  match n with
  | O => [initial_state task]
  | S n' =>
      within task n' ++
      (within task n' ≫= fun s => snd <$> get_successor_states task s)
  end.

(** A goal state lies at most [n] operators away. *)
Definition goal_within (task : Task) (n : nat) : bool :=
  existsb (goal_reached task) (within task n).

End Search.

Arguments Task : clear implicits.
Arguments SearchNode : clear implicits.
Arguments OpenEntry : clear implicits.
Arguments call_result : clear implicits.
Arguments LoopState State {_ _} Operator.
Arguments config State {_ _} Operator.
Arguments outcome State {_ _} Operator.
Arguments expand_successor : simpl never.

(** ** Tasks used as concrete instances *)

(** The chain [0 -> 1 -> 2 -> 3] with goal [3]; operator [i] leads from
    state [i] to state [i + 1]. *)
Definition chain_task : Task nat nat :=
  mkTask 0 (fun s => Nat.eqb s 3)
    (fun s => if Nat.ltb s 3 then [(s, S s)] else []).

(** The number of operators still needed on the chain. *)
Definition chain_h (node : SearchNode nat nat) : num :=
  Fin (Z.of_nat (3 - state node)).

(** A task without solution: [0 -> 1], goal [2]. *)
Definition stuck_task : Task nat nat :=
  mkTask 0 (fun s => Nat.eqb s 2)
    (fun s => match s with 0 => [(0, 1)] | _ => [] end).

Definition zero_h (node : SearchNode nat nat) : num := Fin 0.

(** Two ways to state [3], [0 -> 1 -> 2 -> 3] and [0 -> 5 -> 3]; the goal
    [4] lies behind [3]. *)
Definition detour_task : Task nat nat :=
  mkTask 0 (fun s => Nat.eqb s 4)
    (fun s => match s with
              | 0 => [(10, 1); (50, 5)]
              | 1 => [(11, 2)]
              | 2 => [(12, 3)]
              | 3 => [(13, 4)]
              | 5 => [(53, 3)]
              | _ => []
              end).

(** A heuristic that sends greedy best-first search the long way first. *)
Definition detour_h (node : SearchNode nat nat) : num :=
  match state node with
  | 0 => Fin 5
  | 1 => Fin 1
  | 2 => Fin 1
  | 3 => Fin 3
  | 5 => Fin 2
  | _ => Fin 0
  end.

(** A heuristic that reports a dead end at state [1]. *)
Definition wall_h (node : SearchNode nat nat) : num :=
  match state node with
  | 1 => Inf
  | _ => Fin 0
  end.

(** The program point after [n] steps. *)
Fixpoint exec_steps {State : Type} `{Countable State} {Operator : Type}
    (task : Task State Operator)
    (heuristic : SearchNode State Operator -> num)
    (make_open_entry :
       SearchNode State Operator -> num -> nat -> OpenEntry State Operator)
    (n : nat) (c : config State Operator) : option (config State Operator) :=
  match n with
  | O => Some c
  | S n' =>
      match exec_step task heuristic make_open_entry c with
      | Some c' => exec_steps task heuristic make_open_entry n' c'
      | None => None
      end
  end.

(** Greedy best-first search on [detour_task], after the states [0], [1],
    [2] and [5] have been expanded: the state at the head of the loop. *)
Definition detour_state : LoopState nat nat :=
  match
    exec_steps detour_task detour_h ordered_node_greedy_best_first 13
      (AtHead
         (initial_loop_state detour_task detour_h
            ordered_node_greedy_best_first))
  with
  | Some (AtHead st) => st
  | _ => initial_loop_state detour_task detour_h ordered_node_greedy_best_first
  end.

(** A* on [detour_task] with the heuristic [wall_h], after the initial
    state has been expanded: the state at the head of the loop. *)
Definition wall_state : LoopState nat nat :=
  match
    exec_steps detour_task wall_h ordered_node_astar 4
      (AtHead (initial_loop_state detour_task wall_h ordered_node_astar))
  with
  | Some (AtHead st) => st
  | _ => initial_loop_state detour_task wall_h ordered_node_astar
  end.

(** ** Further vocabulary *)

Section Search_more.

Context {State : Type} {State_eq : EqDecision State}
  {State_countable : Countable State} {Operator : Type}.

(** The heuristic reports [+infinity] only where no goal can be reached. *)
Definition safe_pruning (task : Task State Operator)
    (heuristic : SearchNode State Operator -> num) : Prop :=
  forall node, can_reach_goal task (state node) -> heuristic node <> Inf.

(** The heuristic looks at the state of the node only. *)
Definition state_based (heuristic : SearchNode State Operator -> num)
    (hs : State -> num) : Prop :=
  forall node, heuristic node = hs (state node).

Definition consistent_on_states (task : Task State Operator)
    (hs : State -> num) : Prop :=
  forall s op s',
    (op, s') ∈ get_successor_states task s ->
    num_le (hs s) (num_add (Fin 1) (hs s')).

(** [n] is the least number of operators that lead from the initial state
    to [s]. *)
Definition shortest_to (task : Task State Operator) (s : State) (n : nat)
    : Prop :=
  (exists ops, path task (initial_state task) ops s /\ length ops = n) /\
  forall ops, path task (initial_state task) ops s -> n <= length ops.

(** [expanded_upto] with the states that count given by [live]. *)
Definition expanded_live (live : State -> Prop) (task : Task State Operator)
    (cost : gmap State nat) (s : State) (c : nat)
    (l : list (Operator * State)) : Prop :=
  goal_reached task s = false /\
  forall op s', (op, s') ∈ l -> live s' ->
    exists c', cost !! s' = Some c' /\ c' <= c + 1.

(** [open_or_closed] with the states that count given by [live]. *)
Definition frontier_or_expanded (live : State -> Prop)
    (task : Task State Operator) (st : LoopState State Operator)
    (current : option (State * nat * list (Operator * State))) : Prop :=
  forall s c, state_cost st !! s = Some c ->
    (exists e, e ∈ open st /\ state (entry_node e) = s /\
               g (entry_node e) = c) \/
    expanded_live live task (state_cost st) s c
      (get_successor_states task s) \/
    (exists done, current = Some (s, c, done) /\
                  expanded_live live task (state_cost st) s c done).

(** The counters at a program point: [counter] counts the finished
    expansions, [expansions] the started ones; the popped entries are at
    least as many; the tiebreaker is the number of pushes after the root. *)
Definition counters_ok (c : config State Operator) : Prop :=
  match c with
  | AtHead st =>
      counter st = expansions st /\
      expansions st + length (open st) <= length (pushed st) /\
      node_tiebreaker st + 1 = length (pushed st)
  | InFor st _ _ =>
      expansions st = counter st + 1 /\
      expansions st + length (open st) <= length (pushed st) /\
      node_tiebreaker st + 1 = length (pushed st)
  | Finished _ => True
  end.

(** In the list of pushed nodes, latest first, a node has a strictly smaller
    [g] than the nodes pushed before it for the same state. *)
Fixpoint pushes_decrease (l : list (SearchNode State Operator)) : Prop :=
  match l with
  | [] => True
  | node :: l' =>
      (forall node', node' ∈ l' -> state node' = state node ->
         g node < g node') /\
      pushes_decrease l'
  end.

(** The tiebreaker of an entry of the frontier is the position of its node in
    the order of the pushes. *)
Definition tie_is_index (st : LoopState State Operator) : Prop :=
  node_tiebreaker st + 1 = length (pushed st) /\
  forall e, e ∈ open st ->
    entry_tie e <= node_tiebreaker st /\
    pushed st !! (node_tiebreaker st - entry_tie e) = Some (entry_node e).

(** The states from the root to the node, along the parents. *)
Fixpoint visited (node : SearchNode State Operator) : list State :=
  match parent node with
  | None => [state node]
  | Some p => visited p ++ [state node]
  end.

(** [walk task states ops]: the operators [ops] lead through the states
    [states], one after the other. *)
Inductive walk (task : Task State Operator)
    : list State -> list Operator -> Prop :=
| walk_start s : walk task [s] []
| walk_step states ops s op s' :
    walk task states ops -> last states = Some s ->
    (op, s') ∈ get_successor_states task s ->
    walk task (states ++ [s']) (ops ++ [op]).

(** The node stands for a way from the initial state to its state that
    passes through no state twice, and the table knows each state on it at
    a cost of at most [g]. *)
Definition node_simple (task : Task State Operator)
    (st : LoopState State Operator) (node : SearchNode State Operator)
    : Prop :=
  walk task (visited node) (extract_solution node) /\
  head (visited node) = Some (initial_state task) /\
  last (visited node) = Some (state node) /\
  NoDup (visited node) /\
  forall s, s ∈ visited node ->
    exists k, state_cost st !! s = Some k /\ k <= g node.

End Search_more.

(** A* on the chain after the initial state has been expanded: the state
    at the head of the loop. *)
Definition chain_state : LoopState nat nat :=
  match
    iterate_loop chain_task chain_h ordered_node_astar 1
      (initial_loop_state chain_task chain_h ordered_node_astar)
  with
  | Some st => st
  | None => initial_loop_state chain_task chain_h ordered_node_astar
  end.

(** Weighted A* with the weight 5 on [detour_task], after the initial state
    has been expanded: the state at the head of the loop. *)
Definition weighted_state : LoopState nat nat :=
  match
    exec_steps detour_task detour_h (ordered_node_weighted_astar 5) 4
      (AtHead
         (initial_loop_state detour_task detour_h
            (ordered_node_weighted_astar 5)))
  with
  | Some (AtHead st) => st
  | _ => initial_loop_state detour_task detour_h
           (ordered_node_weighted_astar 5)
  end.

(** A task whose initial state is a goal. *)
Definition solved_task : Task nat nat :=
  mkTask 0 (fun _ => true) (fun s => [(0, S s)]).

(** A heuristic that reports a dead end everywhere. *)
Definition inf_h (node : SearchNode nat nat) : num := Inf.

(** A heuristic whose value, the integer [2^1024], has no float. *)
Definition huge_h (node : SearchNode nat nat) : num := Fin (2 ^ 1024).

(** The chain by its states. *)
Definition chain_hs (s : nat) : num := Fin (Z.of_nat (3 - s)).

(** * Properties *)

(** ** Numbers *)

Lemma num_eqb_eq (a b : num) : num_eqb a b = true <-> a = b.
Proof.
  destruct a as [x|], b as [y|]; simpl; split; intros E;
    try discriminate; try reflexivity.
  - apply Z.eqb_eq in E. by subst.
  - injection E as ->. apply Z.eqb_refl.
Qed.

Lemma num_eqb_neq (a b : num) : num_eqb a b = false <-> a <> b.
Proof.
  rewrite <- num_eqb_eq. destruct (num_eqb a b); split; congruence.
Qed.

Lemma num_ltb_irrefl (a : num) : num_ltb a a = false.
Proof. destruct a; simpl; [apply Z.ltb_irrefl | done]. Qed.

Lemma num_ltb_trans (a b c : num) :
  num_ltb a b = true -> num_ltb b c = true -> num_ltb a c = true.
Proof.
  destruct a, b, c; simpl; try done.
  rewrite !Z.ltb_lt. lia.
Qed.

Lemma num_ltb_asym (a b : num) : num_ltb a b = true -> num_ltb b a = false.
Proof.
  destruct a, b; simpl; try done.
  rewrite Z.ltb_lt, Z.ltb_ge. lia.
Qed.

Lemma num_ltb_total (a b : num) :
  num_ltb a b = false -> num_ltb b a = false -> a = b.
Proof.
  destruct a, b; simpl; try done.
  rewrite !Z.ltb_ge. intros. f_equal. lia.
Qed.

Lemma num_le_refl (a : num) : num_le a a.
Proof. unfold num_le, num_leb. by rewrite num_ltb_irrefl. Qed.

Lemma num_le_trans (a b c : num) : num_le a b -> num_le b c -> num_le a c.
Proof.
  unfold num_le, num_leb. destruct a, b, c; simpl; try done.
  rewrite !negb_true_iff, !Z.ltb_ge. lia.
Qed.

Lemma num_le_Fin (x y : Z) : num_le (Fin x) (Fin y) <-> (x <= y)%Z.
Proof. unfold num_le, num_leb. simpl. rewrite negb_true_iff, Z.ltb_ge. done. Qed.

Lemma num_le_Fin_inv (a : num) (y : Z) :
  num_le a (Fin y) -> exists x, a = Fin x /\ (x <= y)%Z.
Proof.
  destruct a as [x|]; [|done]. intros E. exists x. split; [done|].
  by apply num_le_Fin.
Qed.

(** ** Comparison of entries and the heap *)

Section Properties.

Context {State : Type} {State_eq : EqDecision State}
  {State_countable : Countable State} {Operator : Type}.

#[local] Abbreviation Task := (Task State Operator).
#[local] Abbreviation SearchNode := (SearchNode State Operator).
#[local] Abbreviation OpenEntry := (OpenEntry State Operator).
#[local] Abbreviation LoopState := (LoopState State Operator).
#[local] Abbreviation config := (config State Operator).

Implicit Types (task : Task) (node : SearchNode) (e : OpenEntry)
  (st : LoopState) (s : State) (ops : list Operator).

Lemma entry_ltb_lex (a b : OpenEntry) :
  entry_ltb a b = true <-> entry_lex_lt a b.
Proof.
  destruct a as [[[fa ha] ta] na], b as [[[fb hb] tb] nb].
  unfold entry_ltb, entry_lex_lt, entry_f, entry_h, entry_tie. simpl.
  destruct (num_eqb fa fb) eqn:Ef; simpl.
  - apply num_eqb_eq in Ef as ->. rewrite num_ltb_irrefl.
    destruct (num_eqb ha hb) eqn:Eh; simpl.
    + apply num_eqb_eq in Eh as ->. rewrite num_ltb_irrefl.
      destruct (Nat.eqb ta tb) eqn:Et; simpl.
      * apply Nat.eqb_eq in Et as ->. split; [done|].
        intros [?|[_ [?|[_ ?]]]]; try done. lia.
      * apply Nat.eqb_neq in Et. rewrite Nat.ltb_lt. split; [naive_solver|].
        intros [?|[_ [?|[_ ?]]]]; done.
    + apply num_eqb_neq in Eh. split; [naive_solver|].
      intros [?|[_ [?|[? _]]]]; done.
  - apply num_eqb_neq in Ef. split; [naive_solver|].
    intros [?|[? _]]; done.
Qed.

Lemma entry_lex_lt_irrefl (a : OpenEntry) : ~ entry_lex_lt a a.
Proof.
  unfold entry_lex_lt. rewrite !num_ltb_irrefl.
  intros [?|[_ [?|[_ ?]]]]; try done. lia.
Qed.

(** Not being less is transitive: the order is total up to the node. *)
Lemma entry_ltb_false_trans (a b c : OpenEntry) :
  entry_ltb b a = false -> entry_ltb c b = false -> entry_ltb c a = false.
Proof.
  destruct a as [[[fa ha] ta] na], b as [[[fb hb] tb] nb],
    c as [[[fc hc] tc] nc].
  unfold entry_ltb.
  destruct fa, fb, fc, ha, hb, hc; simpl;
    repeat match goal with
    | |- context [(?x =? ?y)%Z] => destruct (Z.eqb_spec x y); simpl
    | |- context [(?x <? ?y)%Z] => destruct (Z.ltb_spec x y); simpl
    | |- context [Nat.eqb ?x ?y] => destruct (Nat.eqb_spec x y); simpl
    | |- context [Nat.ltb ?x ?y] => destruct (Nat.ltb_spec x y); simpl
    end; try congruence; try lia.
Qed.

Lemma entry_ltb_irrefl (a : OpenEntry) : entry_ltb a a = false.
Proof.
  destruct (entry_ltb a a) eqn:E; [|done].
  apply entry_ltb_lex in E. by apply entry_lex_lt_irrefl in E.
Qed.

Lemma entry_ltb_asym (a b : OpenEntry) :
  entry_ltb a b = true -> entry_ltb b a = false.
Proof.
  destruct a as [[[fa ha] ta] na], b as [[[fb hb] tb] nb].
  unfold entry_ltb.
  destruct fa, fb, ha, hb; simpl;
    repeat match goal with
    | |- context [(?x =? ?y)%Z] => destruct (Z.eqb_spec x y); simpl
    | |- context [(?x <? ?y)%Z] => destruct (Z.ltb_spec x y); simpl
    | |- context [Nat.eqb ?x ?y] => destruct (Nat.eqb_spec x y); simpl
    | |- context [Nat.ltb ?x ?y] => destruct (Nat.ltb_spec x y); simpl
    end; try congruence; try lia.
Qed.

Lemma heappop_None (l : list OpenEntry) : heappop l = None <-> l = [].
Proof.
  destruct l as [|x l]; simpl; [done|].
  destruct (heappop l) as [[m rest]|]; [|done].
  by destruct (entry_ltb m x).
Qed.

Lemma heappop_perm (l : list OpenEntry) m rest :
  heappop l = Some (m, rest) -> l ≡ₚ m :: rest.
Proof.
  revert m rest. induction l as [|x l IH]; intros m rest; simpl; [done|].
  destruct (heappop l) as [[m' rest']|] eqn:E.
  - destruct (entry_ltb m' x); intros [= <- <-]; [|done].
    rewrite (IH _ _ eq_refl). apply Permutation_swap.
  - intros [= <- <-]. apply heappop_None in E as ->. done.
Qed.

Lemma heappop_min (l : list OpenEntry) m rest :
  heappop l = Some (m, rest) -> forall e, e ∈ l -> entry_ltb e m = false.
Proof.
  revert m rest. induction l as [|x l IH]; intros m rest; simpl; [done|].
  destruct (heappop l) as [[m' rest']|] eqn:E.
  - specialize (IH _ _ eq_refl).
    destruct (entry_ltb m' x) eqn:Lt; intros [= <- <-] e He.
    + apply elem_of_cons in He as [->|He]; [|by apply IH].
      by apply entry_ltb_asym.
    + apply elem_of_cons in He as [->|He]; [apply entry_ltb_irrefl|].
      eapply entry_ltb_false_trans; [|by apply IH]. done.
  - intros [= <- <-] e He. apply heappop_None in E as ->.
    apply list_elem_of_singleton in He as ->. apply entry_ltb_irrefl.
Qed.

Lemma heappop_length (l : list OpenEntry) m rest :
  heappop l = Some (m, rest) -> length l = S (length rest).
Proof. intros E. by rewrite (heappop_perm _ _ _ E). Qed.

Lemma heappop_elem (l : list OpenEntry) m rest :
  heappop l = Some (m, rest) ->
  forall e, e ∈ l <-> e = m \/ e ∈ rest.
Proof.
  intros E e. rewrite (heappop_perm _ _ _ E). apply elem_of_cons.
Qed.

(** ** Paths *)

Lemma path_app task s ops1 s1 ops2 s2 :
  path task s ops1 s1 -> path task s1 ops2 s2 -> path task s (ops1 ++ ops2) s2.
Proof.
  induction 1 as [|s op s' ops s'' Hin _ IH]; simpl; [done|].
  intros P2. econstructor; eauto.
Qed.

Lemma path_snoc task s ops s' op s'' :
  path task s ops s' -> (op, s'') ∈ get_successor_states task s' ->
  path task s (ops ++ [op]) s''.
Proof.
  intros P Hin. eapply path_app; [done|].
  econstructor; [done|constructor].
Qed.

Lemma path_app_inv task s ops1 ops2 s2 :
  path task s (ops1 ++ ops2) s2 ->
  exists s1, path task s ops1 s1 /\ path task s1 ops2 s2.
Proof.
  revert s. induction ops1 as [|op ops1 IH]; simpl; intros s P.
  - exists s. split; [constructor|done].
  - inversion P as [|? ? s' ? ? Hin P']; subst.
    destruct (IH _ P') as (s1 & P1 & P2).
    exists s1. split; [econstructor; eauto|done].
Qed.

Lemma path_cons_inv task s op ops s2 :
  path task s (op :: ops) s2 ->
  exists s1, (op, s1) ∈ get_successor_states task s /\ path task s1 ops s2.
Proof. inversion 1; subst. eauto. Qed.

Lemma path_nil_inv task s s' : path task s [] s' -> s' = s.
Proof. by inversion 1. Qed.

Lemma within_mono task n s : s ∈ within task n -> s ∈ within task (S n).
Proof. simpl. intros. apply elem_of_app. by left. Qed.

Lemma within_le task n m s : n <= m -> s ∈ within task n -> s ∈ within task m.
Proof. induction 1; [done|]. intros. by apply within_mono, IHle. Qed.

Lemma within_succ task n s op s' :
  s ∈ within task n -> (op, s') ∈ get_successor_states task s ->
  s' ∈ within task (S n).
Proof.
  intros Hs Hin. simpl. apply elem_of_app. right.
  apply list_elem_of_bind. exists s. split; [|done].
  apply list_elem_of_fmap. by exists (op, s').
Qed.

Lemma path_within task ops : forall n s,
  path task (initial_state task) ops s -> length ops <= n ->
  s ∈ within task n.
Proof.
  induction ops as [|op ops IH] using rev_ind; intros n s P Hn.
  - apply path_nil_inv in P as ->.
    apply (within_le task 0); [lia|]. simpl. apply list_elem_of_here.
  - apply path_app_inv in P as (s1 & P1 & P2).
    apply path_cons_inv in P2 as (s2 & Hin & P2).
    apply path_nil_inv in P2 as ->.
    rewrite length_app in Hn. simpl in Hn.
    destruct n as [|n]; [lia|].
    eapply within_succ; [|done]. apply IH; [done|lia].
Qed.

Lemma within_path task n : forall s,
  s ∈ within task n ->
  exists ops, path task (initial_state task) ops s /\ length ops <= n.
Proof.
  induction n as [|n IH]; simpl; intros s Hs.
  - apply list_elem_of_singleton in Hs as ->. exists []. split; [constructor|done].
  - apply elem_of_app in Hs as [Hs|Hs].
    + destruct (IH _ Hs) as (ops & P & L). exists ops. split; [done|lia].
    + apply list_elem_of_bind in Hs as (s0 & Hs & Hs0).
      apply list_elem_of_fmap in Hs as ([op s'] & -> & Hin).
      destruct (IH _ Hs0) as (ops & P & L).
      exists (ops ++ [op]). split; [by eapply path_snoc|].
      rewrite length_app. simpl. lia.
Qed.

(** ** Nodes *)

Lemma node_ok_root task : node_ok task (make_root_node (initial_state task)).
Proof. split; [constructor|done]. Qed.

Lemma node_ok_child task node op s :
  node_ok task node -> (op, s) ∈ get_successor_states task (state node) ->
  node_ok task (make_child_node node op s).
Proof.
  intros [P L] Hin. split; simpl.
  - by eapply path_snoc.
  - rewrite length_app, L. done.
Qed.

Lemma node_ok_reachable task node : node_ok task node -> reachable task (state node).
Proof. intros [P _]. by eexists. Qed.

(** ** One round of the [for] loop *)

Section Loop_facts.

Variable task : Task.
Variable heuristic : SearchNode -> num.
Variable make_open_entry : SearchNode -> num -> nat -> OpenEntry.

#[local] Abbreviation expand := (expand_successor heuristic make_open_entry).
#[local] Abbreviation inv := (search_inv task heuristic make_open_entry).

(** The state after a push. *)
Lemma expand_successor_cases pop_node pop_g st op s :
  let child := make_child_node pop_node op s in
  let st' := expand pop_node pop_g st (op, s) in
  (st' = st /\
   (heuristic child = Inf \/
    exists c, state_cost st !! s = Some c /\ c <= pop_g + 1)) \/
  (heuristic child <> Inf /\
   (state_cost st !! s = None \/
    exists c, state_cost st !! s = Some c /\ pop_g + 1 < c) /\
   st' = mkLoopState (<[s := pop_g + 1]> (state_cost st))
           (node_tiebreaker st + 1)
           (make_open_entry child (heuristic child) (node_tiebreaker st + 1)
              :: open st)
           (besth st) (counter st) (expansions st)
           (entry_node
              (make_open_entry child (heuristic child) (node_tiebreaker st + 1))
              :: pushed st)).
Proof.
  intros child st'. subst st'. unfold expand_successor. fold child.
  destruct (num_eqb (heuristic child) Inf) eqn:Eh.
  - left. split; [done|]. left. by apply num_eqb_eq.
  - apply num_eqb_neq in Eh.
    destruct (state_cost st !! s) as [c|] eqn:Ec.
    + destruct (Nat.ltb_spec (pop_g + 1) c).
      * right. split; [done|]. split; [|done]. right. eauto.
      * left. split; [done|]. right. eauto.
    + right. split; [done|]. split; [by left|done].
Qed.

Lemma search_inv_ext st st' :
  state_cost st' = state_cost st -> node_tiebreaker st' = node_tiebreaker st ->
  open st' = open st -> pushed st' = pushed st ->
  inv st -> inv st'.
Proof.
  intros Ec Et Eo Ep [I0 I1 I2 I3 I4 I5 I6].
  split; rewrite ?Ec, ?Et, ?Eo, ?Ep; done.
Qed.

Lemma search_inv_pop st popped rest :
  inv st -> heappop (open st) = Some (popped, rest) ->
  inv (set_open st rest).
Proof.
  intros [I0 I1 I2 I3 I4 I5 I6] E. pose proof (heappop_perm _ _ _ E) as Hp.
  split; simpl; try done.
  - intros e He. apply I3. rewrite Hp. by apply list_elem_of_further.
  - rewrite Hp, fmap_cons in I4. by apply NoDup_cons in I4 as [_ ?].
Qed.

Lemma search_inv_init :
  ordering_policy make_open_entry ->
  inv (initial_loop_state task heuristic make_open_entry).
Proof.
  intros Hpol. unfold initial_loop_state, heappush.
  set (root := make_root_node (initial_state task)).
  destruct (Hpol root (heuristic root) 0) as (Eh & Et & En).
  split; simpl; rewrite ?En.
  - apply list_elem_of_here.
  - intros node ->%list_elem_of_singleton. apply node_ok_root.
  - intros node ->%list_elem_of_singleton. by left.
  - intros e ->%list_elem_of_singleton. rewrite En, Et.
    split; [apply list_elem_of_here|]. split; [done|done].
  - apply NoDup_singleton.
  - intros s c [<- <-]%lookup_singleton_Some. exists root.
    split; [apply list_elem_of_here|done].
  - intros node ->%list_elem_of_singleton. exists 0.
    split; [apply lookup_singleton_eq|done].
Qed.

Lemma search_inv_expand st pop_node op s :
  ordering_policy make_open_entry ->
  inv st -> pop_node ∈ pushed st ->
  (op, s) ∈ get_successor_states task (state pop_node) ->
  inv (expand pop_node (g pop_node) st (op, s)).
Proof.
  intros Hpol I Hpop Hin.
  destruct (expand_successor_cases pop_node (g pop_node) st op s)
    as [[-> _]|(Hh & Hc & ->)]; [done|].
  set (child := make_child_node pop_node op s).
  destruct (Hpol child (heuristic child) (node_tiebreaker st + 1))
    as (Eh & Et & En).
  destruct I as [I0 I1 I2 I3 I4 I5 I6].
  split; simpl; rewrite ?En.
  - by apply list_elem_of_further.
  - intros node [->|Hn]%elem_of_cons; [|by apply I1].
    apply node_ok_child; [by apply I1|done].
  - intros node [->|Hn]%elem_of_cons; [|by apply I2].
    right. exists pop_node, op. done.
  - intros e [->|He]%elem_of_cons.
    + rewrite En, Et. split; [apply list_elem_of_here|done].
    + destruct (I3 e He) as (? & ? & ?).
      split; [by apply list_elem_of_further|]. split; [lia|done].
  - rewrite Et. apply NoDup_cons. split; [|done].
    intros (e & Ee & He)%list_elem_of_fmap.
    destruct (I3 e He) as (_ & ? & _). lia.
  - intros s' c. destruct (decide (s = s')) as [<-|Hne].
    + rewrite lookup_insert_eq. intros [= <-]. exists child.
      split; [apply list_elem_of_here|]. split; [done|]. simpl. done.
    + rewrite lookup_insert_ne by done. intros Hs'.
      destruct (I5 _ _ Hs') as (node & ? & ? & ?).
      exists node. split; [by apply list_elem_of_further|done].
  - intros node [->|Hn]%elem_of_cons.
    + simpl. rewrite lookup_insert_eq. eauto.
    + destruct (I6 _ Hn) as (c & Ec & Hle).
      destruct (decide (s = state node)) as [Es|Hne].
      * rewrite <- Es, lookup_insert_eq. eexists. split; [done|].
        rewrite <- Es in Ec.
        destruct Hc as [Hc|(c' & Hc & Hlt)]; [congruence|].
        assert (c' = c) by congruence. lia.
      * rewrite lookup_insert_ne by done. eauto.
Qed.

End Loop_facts.

(** ** One round of the [while] loop *)

Lemma stale_iff (cost : gmap State nat) s (n : nat) :
  num_ltb (cost_get cost s) (of_nat n) = true <->
  exists c, cost !! s = Some c /\ c < n.
Proof.
  unfold cost_get, of_nat. destruct (cost !! s) as [c|]; simpl.
  - rewrite Z.ltb_lt. split; [intros; exists c; split; [done|lia]|].
    intros (c' & [= <-] & ?). lia.
  - split; [done|]. by intros (c' & ? & _).
Qed.

Lemma fresh_iff (cost : gmap State nat) s (n : nat) :
  num_ltb (cost_get cost s) (of_nat n) = false <->
  forall c, cost !! s = Some c -> n <= c.
Proof.
  rewrite <- not_true_iff_false, stale_iff. split.
  - intros Hn c Hc. destruct (decide (n <= c)); [done|].
    exfalso. apply Hn. exists c. split; [done|lia].
  - intros Hle (c & Hc & Hlt). specialize (Hle _ Hc). lia.
Qed.

Lemma update_besth_fields st h :
  state_cost (update_besth st h) = state_cost st /\
  node_tiebreaker (update_besth st h) = node_tiebreaker st /\
  open (update_besth st h) = open st /\
  pushed (update_besth st h) = pushed st /\
  counter (update_besth st h) = counter st /\
  expansions (update_besth st h) = expansions st.
Proof. unfold update_besth. by destruct (num_ltb h (besth st)). Qed.

Section Body_facts.

Variable task : Task.
Variable heuristic : SearchNode -> num.
Variable make_open_entry : SearchNode -> num -> nat -> OpenEntry.

#[local] Abbreviation expand := (expand_successor heuristic make_open_entry).
#[local] Abbreviation body := (loop_body task heuristic make_open_entry).
#[local] Abbreviation inv := (search_inv task heuristic make_open_entry).
#[local] Abbreviation step := (exec task heuristic make_open_entry).

(** The three ways through the body of the loop. *)
Lemma loop_body_cases st popped :
  let node := entry_node popped in
  let st1 := update_besth st (entry_h popped) in
  ((exists c, state_cost st !! state node = Some c /\ c < g node) /\
   body st popped = Continue st1) \/
  ((forall c, state_cost st !! state node = Some c -> g node <= c) /\
   goal_reached task (state node) = true /\
   body st popped = Return (extract_solution node)) \/
  ((forall c, state_cost st !! state node = Some c -> g node <= c) /\
   goal_reached task (state node) = false /\
   body st popped =
     Continue (incr_counter
       (fold_left (expand node (g node))
          (get_successor_states task (state node)) (incr_expansions st1)))).
Proof.
  destruct popped as [[[f h] tie] node]. simpl.
  unfold loop_body, entry_h, entry_node. simpl.
  destruct (update_besth_fields st h) as (Ec & _).
  rewrite Ec.
  destruct (num_ltb (cost_get (state_cost st) (state node)) (of_nat (g node)))
    eqn:Es.
  - left. apply stale_iff in Es. done.
  - right. rewrite fresh_iff in Es.
    destruct (goal_reached task (state node)); [left|right]; done.
Qed.

(** The body returns exactly when the popped node passes the staleness
    check and the goal test. *)
Lemma loop_body_Return st popped solution :
  body st popped = Return solution <->
  (forall c, state_cost st !! state (entry_node popped) = Some c ->
     g (entry_node popped) <= c) /\
  goal_reached task (state (entry_node popped)) = true /\
  solution = extract_solution (entry_node popped).
Proof.
  destruct (loop_body_cases st popped)
    as [((c & Hc & Hlt) & Hy)|[(Hf & Hg & Hy)|(Hf & Hg & Hy)]]; rewrite Hy.
  - split; [done|]. intros (Hf & _). specialize (Hf _ Hc). lia.
  - split; [by intros [= <-]|]. by intros (_ & _ & ->).
  - split; [done|]. intros (_ & ? & _). congruence.
Qed.

Lemma exec_head_cases st popped rest :
  heappop (open st) = Some (popped, rest) ->
  let node := entry_node popped in
  let st1 := update_besth (set_open st rest) (entry_h popped) in
  ((exists c, state_cost st !! state node = Some c /\ c < g node) /\
   exec_step task heuristic make_open_entry (AtHead st) = Some (AtHead st1)) \/
  ((forall c, state_cost st !! state node = Some c -> g node <= c) /\
   goal_reached task (state node) = true /\
   exec_step task heuristic make_open_entry (AtHead st) =
     Some (Finished (Some (extract_solution node)))) \/
  ((forall c, state_cost st !! state node = Some c -> g node <= c) /\
   goal_reached task (state node) = false /\
   exec_step task heuristic make_open_entry (AtHead st) =
     Some (InFor (incr_expansions st1) node
             (get_successor_states task (state node)))).
Proof.
  intros E. destruct popped as [[[f h] tie] node]. simpl.
  unfold entry_h, entry_node. simpl. rewrite E.
  destruct (update_besth_fields (set_open st rest) h) as (Ec & _).
  rewrite Ec. simpl.
  destruct (num_ltb (cost_get (state_cost st) (state node)) (of_nat (g node)))
    eqn:Es.
  - left. apply stale_iff in Es. done.
  - right. rewrite fresh_iff in Es.
    destruct (goal_reached task (state node)); [left|right]; done.
Qed.

Lemma exec_step_for_cons st node succ todo :
  exec_step task heuristic make_open_entry (InFor st node (succ :: todo)) =
  Some (InFor (expand node (g node) st succ) node todo).
Proof. done. Qed.

(** The program points follow the loop: the [for] loop ... *)
Lemma exec_for st node todo :
  rtc step (InFor st node todo)
    (AtHead (incr_counter (fold_left (expand node (g node)) todo st))).
Proof.
  revert st. induction todo as [|succ todo IH]; intros st; simpl.
  - apply rtc_once. done.
  - eapply rtc_l; [|apply IH]. done.
Qed.

(** ... and within it, after any number of successors ... *)
Lemma exec_for_prefix st node done todo :
  rtc step (InFor st node (done ++ todo))
    (InFor (fold_left (expand node (g node)) done st) node todo).
Proof.
  revert st. induction done as [|succ done IH]; intros st; simpl.
  - done.
  - eapply rtc_l; [|apply IH]. done.
Qed.

(** ... and a round of the [while] loop ... *)
Lemma exec_body st popped rest :
  heappop (open st) = Some (popped, rest) ->
  match body (set_open st rest) popped with
  | Return solution => step (AtHead st) (Finished (Some solution))
  | Continue st' => rtc step (AtHead st) (AtHead st')
  end.
Proof.
  intros E.
  destruct (exec_head_cases st popped rest E)
    as [((c & Hc & Hlt) & Hx)|[(Hf & Hg & Hx)|(Hf & Hg & Hx)]];
  destruct (loop_body_cases (set_open st rest) popped)
    as [((c' & Hc' & Hlt') & Hy)|[(Hf' & Hg' & Hy)|(Hf' & Hg' & Hy)]];
  simpl in *; rewrite Hy;
  try (specialize (Hf' _ Hc); lia);
  try (specialize (Hf _ Hc'); lia);
  try congruence.
  - by apply rtc_once.
  - done.
  - eapply rtc_l; [exact Hx|]. apply exec_for.
Qed.

(** ... so that a run of the loop is a run through the program points. *)
Lemma exec_astar_loop fuel : forall st result,
  astar_loop task heuristic make_open_entry fuel st = Some result ->
  rtc step (AtHead st) (Finished result).
Proof.
  induction fuel as [|fuel IH]; intros st result; simpl; [done|].
  destruct (heappop (open st)) as [[popped rest]|] eqn:E.
  - pose proof (exec_body st popped rest E) as Hb.
    destruct (body (set_open st rest) popped) as [solution|st'].
    + intros [= <-]. by apply rtc_once.
    + intros Hr. etrans; [exact Hb|]. by apply IH.
  - intros [= <-]. apply rtc_once. unfold exec. simpl. by rewrite E.
Qed.

Lemma exec_iterate_loop n : forall st st',
  iterate_loop task heuristic make_open_entry n st = Some st' ->
  rtc step (AtHead st) (AtHead st').
Proof.
  induction n as [|n IH]; intros st st'; simpl.
  - by intros [= <-].
  - destruct (heappop (open st)) as [[popped rest]|] eqn:E; [|done].
    pose proof (exec_body st popped rest E) as Hb.
    destruct (body (set_open st rest) popped) as [solution|st1]; [done|].
    intros Hr. etrans; [exact Hb|]. by apply IH.
Qed.

(** The invariant holds at every program point. *)
Lemma config_inv_step c c' :
  ordering_policy make_open_entry ->
  config_inv task heuristic make_open_entry c -> step c c' ->
  config_inv task heuristic make_open_entry c'.
Proof.
  intros Hpol I Hs. destruct c as [st|st node todo|r].
  - simpl in I. destruct (heappop (open st)) as [[popped rest]|] eqn:E.
    + pose proof (search_inv_pop _ _ _ _ _ _ I E) as I1.
      assert (I2 : inv (update_besth (set_open st rest) (entry_h popped))).
      { destruct (update_besth_fields (set_open st rest) (entry_h popped))
          as (? & ? & ? & ? & _).
        by eapply search_inv_ext; [..|exact I1]. }
      destruct (exec_head_cases st popped rest E)
        as [(_ & Hx)|[(_ & _ & Hx)|(_ & _ & Hx)]];
        unfold exec in Hs; rewrite Hx in Hs; injection Hs as <-; simpl;
        try done.
      split; [by eapply search_inv_ext; [..|exact I2]|].
      split; [|by exists []].
      simpl.
      destruct (update_besth_fields (set_open st rest) (entry_h popped))
        as (_ & _ & _ & -> & _). simpl.
      apply (inv_open _ _ _ _ I). rewrite (heappop_perm _ _ _ E).
      apply list_elem_of_here.
    + unfold exec in Hs. simpl in Hs. rewrite E in Hs. by injection Hs as <-.
  - destruct I as (I & Hn & done & Hd). destruct todo as [|[op s] todo].
    + injection Hs as <-. simpl. by eapply search_inv_ext; [..|exact I].
    + unfold exec in Hs. rewrite exec_step_for_cons in Hs.
      apply (inj Some) in Hs. subst c'. cbn [config_inv].
      assert (Hin : (op, s) ∈ get_successor_states task (state node)).
      { rewrite Hd. apply elem_of_app. right. apply list_elem_of_here. }
      split; [by apply search_inv_expand|]. split.
      * destruct (expand_successor_cases heuristic make_open_entry
                    node (g node) st op s) as [[-> _]|(_ & _ & ->)]; [done|].
        simpl. by apply list_elem_of_further.
      * exists (done ++ [(op, s)]). by rewrite <- app_assoc.
  - done.
Qed.

Lemma config_inv_point c :
  ordering_policy make_open_entry ->
  exec_point task heuristic make_open_entry c ->
  config_inv task heuristic make_open_entry c.
Proof.
  intros Hpol Hc. unfold exec_point in Hc. revert c Hc.
  apply rtc_ind_r.
  - by apply search_inv_init.
  - intros c c' _ Hs IH. by eapply config_inv_step.
Qed.

(** The table never grows at a state: one step ... *)
Lemma cost_step_le c c' st st' :
  step c c' -> config_state c = Some st -> config_state c' = Some st' ->
  forall s k, state_cost st !! s = Some k ->
    exists k', state_cost st' !! s = Some k' /\ k' <= k.
Proof.
  intros Hs Hc Hc' s k Hk. destruct c as [st0|st0 node todo|r]; simpl in Hc;
    [| |done]; injection Hc as ->.
  - destruct (heappop (open st)) as [[popped rest]|] eqn:E.
    + destruct (update_besth_fields (set_open st rest) (entry_h popped))
        as (Ec & _).
      destruct (exec_head_cases st popped rest E)
        as [(_ & Hx)|[(_ & _ & Hx)|(_ & _ & Hx)]];
        unfold exec in Hs; rewrite Hx in Hs; apply (inj Some) in Hs; subst c';
        simpl in Hc'; [| done |]; injection Hc' as <-; simpl; rewrite Ec;
        simpl; eauto.
    + unfold exec in Hs. simpl in Hs. rewrite E in Hs.
      apply (inj Some) in Hs. by subst c'.
  - destruct todo as [|[op s'] todo].
    + apply (inj Some) in Hs. subst c'. injection Hc' as <-. simpl. eauto.
    + unfold exec in Hs. rewrite exec_step_for_cons in Hs.
      apply (inj Some) in Hs. subst c'. cbn [config_state] in Hc'.
      apply (inj Some) in Hc'. subst st'.
      destruct (expand_successor_cases heuristic make_open_entry
                  node (g node) st op s') as [[-> _]|(_ & Hcond & ->)];
        [eauto|]. simpl.
      destruct (decide (s' = s)) as [->|Hne].
      * rewrite lookup_insert_eq. eexists. split; [done|].
        destruct Hcond as [?|(k' & ? & ?)]; [congruence|].
        assert (k' = k) by congruence. lia.
      * rewrite lookup_insert_ne by done. eauto.
Qed.

(** ... and any number of steps. *)
Lemma cost_steps_le c c' :
  rtc step c c' -> forall st st',
  config_state c = Some st -> config_state c' = Some st' ->
  forall s k, state_cost st !! s = Some k ->
    exists k', state_cost st' !! s = Some k' /\ k' <= k.
Proof.
  induction 1 as [c|c c1 c' Hs Hr IH]; intros st st' Hc Hc' s k Hk.
  - rewrite Hc in Hc'. injection Hc' as <-. eauto.
  - destruct (config_state c1) as [st1|] eqn:Hc1.
    + destruct (cost_step_le _ _ _ _ Hs Hc Hc1 _ _ Hk) as (k1 & Hk1 & Hle1).
      destruct (IH _ _ eq_refl Hc' _ _ Hk1) as (k' & Hk' & Hle').
      exists k'. split; [done|lia].
    + destruct c1; try done. apply rtc_inv in Hr as [<-|(c2 & Hs2 & _)]; done.
Qed.

End Body_facts.

(** ** The termination measure *)

Lemma cost_sum_insert_new (cost : gmap State nat) s k :
  cost !! s = None -> cost_sum (<[s := k]> cost) = k + cost_sum cost.
Proof.
  intros Hn. unfold cost_sum.
  rewrite map_fold_insert_L; [done| |done]. intros. lia.
Qed.

Lemma cost_sum_insert_lower (cost : gmap State nat) s c k :
  cost !! s = Some c -> k < c -> cost_sum (<[s := k]> cost) < cost_sum cost.
Proof.
  intros Hc Hlt. rewrite <- insert_delete_eq.
  rewrite cost_sum_insert_new by apply lookup_delete_eq.
  unfold cost_sum at 2.
  rewrite (map_fold_delete_L _ _ s c cost); [|intros; lia|done].
  fold (cost_sum (delete s cost)). lia.
Qed.

Lemma absent_insert_new (l : gset State) (cost : gmap State nat) s k :
  s ∈ l -> cost !! s = None ->
  absent l (<[s := k]> cost) < absent l cost.
Proof.
  intros Hl Hn. unfold absent. apply subset_size.
  rewrite dom_insert_L, (union_comm_L {[s]}), <- difference_difference_l_L.
  apply subset_difference_elem_of, elem_of_difference.
  split; [done|]. by apply not_elem_of_dom.
Qed.

Lemma absent_insert_old (l : gset State) (cost : gmap State nat) s c k :
  cost !! s = Some c -> absent l (<[s := k]> cost) = absent l cost.
Proof.
  intros Hc. unfold absent. rewrite dom_insert_L.
  rewrite (subseteq_union_1_L {[s]} (dom cost)); [done|].
  apply singleton_subseteq_l, elem_of_dom. eauto.
Qed.

Lemma cost_lt_trans (l : gset State) (c1 c2 c3 : gmap State nat) :
  cost_lt l c1 c2 -> cost_lt l c2 c3 -> cost_lt l c1 c3.
Proof. unfold cost_lt. lia. Qed.

Section Measure.

Variable task : Task.
Variable heuristic : SearchNode -> num.
Variable make_open_entry : SearchNode -> num -> nat -> OpenEntry.
Variable l : gset State.

#[local] Abbreviation expand := (expand_successor heuristic make_open_entry).
#[local] Abbreviation body := (loop_body task heuristic make_open_entry).
#[local] Abbreviation loop := (astar_loop task heuristic make_open_entry).

(** A push makes the table smaller for the measure. *)
Lemma expand_successor_measure pop_node pop_g st op s :
  s ∈ l ->
  expand pop_node pop_g st (op, s) = st \/
  cost_lt l (state_cost (expand pop_node pop_g st (op, s))) (state_cost st).
Proof.
  intros Hl.
  destruct (expand_successor_cases heuristic make_open_entry
              pop_node pop_g st op s) as [[-> _]|(_ & Hw & ->)]; [by left|].
  right. simpl. destruct Hw as [Hn|(c & Hc & Hlt)].
  - left. by apply absent_insert_new.
  - right. split; [by eapply absent_insert_old|].
    by eapply cost_sum_insert_lower.
Qed.

Lemma fold_expand_measure pop_node pop_g succs : forall st,
  (forall op s, (op, s) ∈ succs -> s ∈ l) ->
  fold_left (expand pop_node pop_g) succs st = st \/
  cost_lt l (state_cost (fold_left (expand pop_node pop_g) succs st))
    (state_cost st).
Proof.
  induction succs as [|[op s] succs IH]; intros st Hl; simpl; [by left|].
  assert (Hs : s ∈ l) by (eapply Hl, list_elem_of_here).
  assert (Hl' : forall op s, (op, s) ∈ succs -> s ∈ l).
  { intros. eapply Hl, list_elem_of_further. done. }
  destruct (expand_successor_measure pop_node pop_g st op s Hs) as [->|Hlt].
  - by apply IH.
  - right. destruct (IH (expand pop_node pop_g st (op, s)) Hl') as [->|Hlt'];
      [done|]. by eapply cost_lt_trans.
Qed.

(** A round of the loop that does not return makes the state smaller, when
    the successors of an expanded state lie in [l]. *)
Lemma loop_body_measure st popped rest st' :
  heappop (open st) = Some (popped, rest) ->
  body (set_open st rest) popped = Continue st' ->
  ((exists c, state_cost st !! state (entry_node popped) = Some c /\
              c < g (entry_node popped)) \/
   (forall op s,
      (op, s) ∈ get_successor_states task (state (entry_node popped)) ->
      s ∈ l)) ->
  measure_lt l st' st.
Proof.
  intros E Hb Hl. pose proof (heappop_length _ _ _ E) as Hlen.
  destruct (update_besth_fields (set_open st rest) (entry_h popped))
    as (Ec & _ & Eo & _).
  destruct (loop_body_cases task heuristic make_open_entry
              (set_open st rest) popped)
    as [(_ & Hy)|[(_ & _ & Hy)|(Hf & _ & Hy)]];
    rewrite Hb in Hy; [|done|]; injection Hy as ->.
  - right. rewrite Ec, Eo. simpl. split; [done|lia].
  - destruct Hl as [(c & Hc & Hlt)|Hl].
    { specialize (Hf _ Hc). lia. }
    destruct (fold_expand_measure (entry_node popped) (g (entry_node popped))
                (get_successor_states task (state (entry_node popped)))
                (incr_expansions
                   (update_besth (set_open st rest) (entry_h popped))) Hl)
      as [->|Hlt].
    + right. simpl. rewrite Ec, Eo. simpl. split; [done|lia].
    + left. simpl in *. by rewrite Ec in Hlt.
Qed.

(** The loop returns from every state of a set of states that it does not
    leave and in which every round makes the state smaller. *)
Lemma loop_terminates (P : LoopState -> Prop)
    (Q : option (list Operator) -> Prop) :
  (forall st, P st -> open st = [] -> Q None) ->
  (forall st popped rest, P st ->
     heappop (open st) = Some (popped, rest) ->
     match body (set_open st rest) popped with
     | Return solution => Q (Some solution)
     | Continue st' => P st' /\ measure_lt l st' st
     end) ->
  forall st, P st -> exists fuel result, loop fuel st = Some result /\ Q result.
Proof.
  intros Hempty Hstep.
  assert (Hmain : forall a b n st,
    absent l (state_cost st) = a -> cost_sum (state_cost st) = b ->
    length (open st) = n -> P st ->
    exists fuel result, loop fuel st = Some result /\ Q result).
  { induction a as [a IHa] using lt_wf_ind.
    induction b as [b IHb] using lt_wf_ind.
    induction n as [n IHn] using lt_wf_ind.
    intros st Ha Hb Hn HP.
    destruct (heappop (open st)) as [[popped rest]|] eqn:E.
    - specialize (Hstep st popped rest HP E).
      destruct (body (set_open st rest) popped) as [solution|st'] eqn:Hbody.
      + exists 1, (Some solution). simpl. by rewrite E, Hbody.
      + destruct Hstep as [HP' Hlt].
        assert (exists fuel result, loop fuel st' = Some result /\ Q result)
          as (fuel & result & Hr & HQ).
        { destruct Hlt as [[Hlt|[Heq Hlt]]|[Heq Hlt]].
          - apply (IHa (absent l (state_cost st')) ltac:(lia)
                     _ _ st' eq_refl eq_refl eq_refl HP').
          - apply (IHb (cost_sum (state_cost st')) ltac:(lia)
                     _ st' ltac:(lia) eq_refl eq_refl HP').
          - apply (IHn (length (open st')) ltac:(lia) st'); [| |done|done];
              by rewrite Heq. }
        exists (S fuel), result. simpl. by rewrite E, Hbody.
    - exists 1, None. simpl. rewrite E. split; [done|].
      apply (Hempty st); [done|]. by apply heappop_None. }
  intros st HP. by eapply Hmain.
Qed.

(** More fuel does not change the result. *)
Lemma astar_loop_fuel_mono fuel : forall st result fuel',
  loop fuel st = Some result -> fuel <= fuel' -> loop fuel' st = Some result.
Proof.
  induction fuel as [|fuel IH]; intros st result fuel'; simpl; [done|].
  intros Hr Hle. destruct fuel' as [|fuel']; [lia|]. simpl.
  destruct (heappop (open st)) as [[popped rest]|]; [|done].
  destruct (body (set_open st rest) popped); [done|].
  apply IH; [done|lia].
Qed.

End Measure.

(** ** What the loop returns *)

Section Results.

Variable task : Task.
Variable heuristic : SearchNode -> num.
Variable make_open_entry : SearchNode -> num -> nat -> OpenEntry.

#[local] Abbreviation body := (loop_body task heuristic make_open_entry).
#[local] Abbreviation loop := (astar_loop task heuristic make_open_entry).
#[local] Abbreviation rounds := (iterate_loop task heuristic make_open_entry).
#[local] Abbreviation inv := (search_inv task heuristic make_open_entry).
#[local] Abbreviation step := (exec task heuristic make_open_entry).

(** The loop returns [None] exactly when, after some rounds none of which
    has returned, the frontier is empty. *)
Lemma astar_loop_None fuel : forall st,
  loop fuel st = Some None <->
  exists n st', n < fuel /\ rounds n st = Some st' /\ open st' = [].
Proof.
  induction fuel as [|fuel IH]; intros st; simpl.
  - split; [done|]. intros (n & _ & ? & _). lia.
  - destruct (heappop (open st)) as [[popped rest]|] eqn:E.
    + destruct (body (set_open st rest) popped) as [solution|st1] eqn:Hb.
      * split; [done|]. intros (n & st' & _ & Hr & Ho).
        destruct n as [|n]; simpl in Hr.
        -- injection Hr as <-. rewrite Ho in E. done.
        -- by rewrite E, Hb in Hr.
      * rewrite IH. split.
        -- intros (n & st' & Hn & Hr & Ho). exists (S n), st'. simpl.
           rewrite E, Hb. split; [lia|done].
        -- intros (n & st' & Hn & Hr & Ho). destruct n as [|n]; simpl in Hr.
           ++ injection Hr as <-. rewrite Ho in E. done.
           ++ rewrite E, Hb in Hr. exists n, st'. split; [lia|done].
    + split; [|done]. intros _. exists 0, st. simpl.
      split; [lia|]. split; [done|]. by apply heappop_None.
Qed.

(** The loop returns a solution exactly when, after some rounds none of
    which has returned, the body returns it: the popped node passes the
    staleness check and the goal test. *)
Lemma astar_loop_Some fuel solution : forall st,
  loop fuel st = Some (Some solution) <->
  exists n st' popped rest,
    n < fuel /\ rounds n st = Some st' /\
    heappop (open st') = Some (popped, rest) /\
    body (set_open st' rest) popped = Return solution.
Proof.
  induction fuel as [|fuel IH]; intros st; simpl.
  - split; [done|]. intros (n & ? & ? & ? & ? & _). lia.
  - destruct (heappop (open st)) as [[popped rest]|] eqn:E.
    + destruct (body (set_open st rest) popped) as [sol|st1] eqn:Hb.
      * split.
        -- intros [= ->]. exists 0, st, popped, rest. simpl.
           split; [lia|done].
        -- intros (n & st' & popped' & rest' & _ & Hr & E' & Hb').
           destruct n as [|n]; simpl in Hr.
           ++ injection Hr as <-. rewrite E in E'. injection E' as <- <-.
              rewrite Hb in Hb'. by injection Hb' as ->.
           ++ by rewrite E, Hb in Hr.
      * rewrite IH. split.
        -- intros (n & st' & popped' & rest' & Hn & Hr & E' & Hb').
           exists (S n), st', popped', rest'. simpl. rewrite E, Hb.
           split; [lia|done].
        -- intros (n & st' & popped' & rest' & Hn & Hr & E' & Hb').
           destruct n as [|n]; simpl in Hr.
           ++ injection Hr as <-. rewrite E in E'. injection E' as <- <-.
              by rewrite Hb in Hb'.
           ++ rewrite E, Hb in Hr. exists n, st', popped', rest'.
              split; [lia|done].
    + split; [done|]. intros (n & st' & popped' & rest' & _ & Hr & E' & _).
      destruct n as [|n]; simpl in Hr.
      * injection Hr as <-. by rewrite E in E'.
      * by rewrite E in Hr.
Qed.

Hypothesis Hpol : ordering_policy make_open_entry.

Lemma config_inv_steps c c' :
  rtc step c c' ->
  config_inv task heuristic make_open_entry c ->
  config_inv task heuristic make_open_entry c'.
Proof. induction 1; [done|]. intros. eauto using config_inv_step. Qed.

Lemma search_inv_body st popped rest st' :
  inv st -> heappop (open st) = Some (popped, rest) ->
  body (set_open st rest) popped = Continue st' -> inv st'.
Proof.
  intros I E Hb.
  pose proof (exec_body task heuristic make_open_entry st popped rest E) as Hx.
  rewrite Hb in Hx. by apply (config_inv_steps _ _ Hx).
Qed.

(** A returned operator sequence solves the task. *)
Lemma loop_body_return st popped rest solution :
  inv st -> heappop (open st) = Some (popped, rest) ->
  body (set_open st rest) popped = Return solution ->
  solution = extract_solution (entry_node popped) /\
  entry_node popped ∈ pushed st /\
  state_cost st !! state (entry_node popped) = Some (g (entry_node popped)) /\
  goal_reached task (state (entry_node popped)) = true /\
  solves task solution.
Proof.
  intros I E Hb.
  assert (Hin : popped ∈ open st).
  { rewrite (heappop_perm _ _ _ E). apply list_elem_of_here. }
  destruct (inv_open _ _ _ _ I _ Hin) as (Hp & _).
  destruct (inv_pushed_ok _ _ _ _ I _ Hp) as [Hpath Hlen].
  destruct (inv_cost_min _ _ _ _ I _ Hp) as (c & Hc & Hle).
  destruct (loop_body_cases task heuristic make_open_entry
              (set_open st rest) popped)
    as [(_ & Hy)|[(Hf & Hg & Hy)|(_ & _ & Hy)]];
    rewrite Hb in Hy; try done. injection Hy as ->.
  split; [done|]. split; [done|]. split.
  - simpl in Hf. specialize (Hf _ Hc). rewrite Hc. f_equal. lia.
  - split; [done|]. by exists (state (entry_node popped)).
Qed.

Lemma search_inv_rounds n : forall st st',
  inv st -> rounds n st = Some st' -> inv st'.
Proof.
  induction n as [|n IH]; intros st st' I; simpl.
  - by intros [= <-].
  - destruct (heappop (open st)) as [[popped rest]|] eqn:E; [|done].
    destruct (body (set_open st rest) popped) as [sol|st1] eqn:Hb; [done|].
    apply IH. by eapply search_inv_body.
Qed.

(** With a finite reachable state space the loop returns. *)
Lemma astar_loop_terminates (states : list State) st :
  (forall s, reachable task s -> s ∈ states) ->
  inv st ->
  exists fuel result,
    loop fuel st = Some result /\
    match result with
    | Some solution => solves task solution
    | None => True
    end.
Proof.
  intros Hfin I.
  apply (loop_terminates task heuristic make_open_entry (list_to_set states)
           inv); [done| |done].
  clear st I. intros st popped rest I E.
  destruct (body (set_open st rest) popped) as [sol|st'] eqn:Hb.
  - by destruct (loop_body_return _ _ _ _ I E Hb) as (_ & _ & _ & _ & ?).
  - split; [by eapply search_inv_body|].
    eapply loop_body_measure; [done..|]. right. intros op s Hin.
    apply elem_of_list_to_set, Hfin.
    assert (Hp : popped ∈ open st).
    { rewrite (heappop_perm _ _ _ E). apply list_elem_of_here. }
    destruct (inv_open _ _ _ _ I _ Hp) as (Hn & _).
    destruct (inv_pushed_ok _ _ _ _ I _ Hn) as [Hpath _].
    eexists. by eapply path_snoc.
Qed.

End Results.

(** A list of states that holds the initial state and the successors of
    its states holds every reachable state. *)
Lemma reachable_closed task (states : list State) :
  initial_state task ∈ states ->
  (forall s op s', s ∈ states ->
     (op, s') ∈ get_successor_states task s -> s' ∈ states) ->
  forall s, reachable task s -> s ∈ states.
Proof.
  intros Hi Hcl s [ops P]. revert Hi.
  induction P as [|s op s' ops s'' Hin _ IH]; [done|].
  intros Hs. apply IH. by eapply Hcl.
Qed.

Lemma exec_steps_rtc task heuristic
    (make_open_entry : SearchNode -> num -> nat -> OpenEntry) n :
  forall c c',
    exec_steps task heuristic make_open_entry n c = Some c' ->
    rtc (exec task heuristic make_open_entry) c c'.
Proof.
  induction n as [|n IH]; intros c c'; simpl.
  - by intros [= <-].
  - destruct (exec_step task heuristic make_open_entry c) as [c1|] eqn:E;
      [|done].
    intros Hn. eapply rtc_l; [exact E|]. by apply IH.
Qed.

(** ** Optimality of A* *)

(** The least number with a decidable property. *)
Lemma least_true (p : nat -> bool) n :
  p n = true -> exists m, p m = true /\ forall j, p j = true -> m <= j.
Proof.
  intros Hn.
  assert (Hb : forall b,
    (exists m, p m = true /\ forall j, p j = true -> m <= j) \/
    (forall j, j < b -> p j = false)).
  { induction b as [|b [IH|IH]]; [right; lia|by left|].
    destruct (p b) eqn:Eb.
    - left. exists b. split; [done|]. intros j Hj.
      destruct (decide (b <= j)); [done|]. rewrite IH in Hj by lia. done.
    - right. intros j Hj. destruct (decide (j = b)) as [->|]; [done|].
      apply IH. lia. }
  destruct (Hb (S n)) as [?|Hno]; [done|]. rewrite Hno in Hn by lia. done.
Qed.

Lemma goal_within_solves task n :
  goal_within task n = true <->
  exists ops, solves task ops /\ length ops <= n.
Proof.
  unfold goal_within. rewrite existsb_exists. split.
  - intros (s & Hs & Hg). apply list_elem_of_In, within_path in Hs as (ops & P & L).
    exists ops. split; [by exists s|done].
  - intros (ops & (sg & P & Hg) & L). exists sg. split; [|done].
    apply list_elem_of_In. by eapply path_within.
Qed.

(** A solvable task has a solution with the least number of operators. *)
Lemma shortest_solution task :
  solvable task ->
  exists best, solves task best /\
    forall ops, solves task ops -> length best <= length ops.
Proof.
  intros [ops0 H0].
  destruct (least_true (goal_within task) (length ops0)) as (m & Hm & Hleast).
  { apply goal_within_solves. eauto. }
  apply goal_within_solves in Hm as (best & Hb & Hlen).
  exists best. split; [done|]. intros ops Hops.
  etrans; [exact Hlen|]. apply Hleast, goal_within_solves. eauto.
Qed.

Lemma fold_left_prefix_inv {A B} (f : A -> B -> A) (J : A -> list B -> Prop)
    (l : list B) :
  (forall a done x todo, l = done ++ x :: todo ->
     J a done -> J (f a x) (done ++ [x])) ->
  forall a, J a [] -> J (fold_left f l a) l.
Proof.
  intros Hstep.
  assert (Hgen : forall todo done a, l = done ++ todo -> J a done ->
            J (fold_left f todo a) l).
  { induction todo as [|x todo IH]; intros done a El Ha; simpl.
    - rewrite app_nil_r in El. by subst.
    - apply (IH (done ++ [x])); [by rewrite <- app_assoc|].
      by eapply Hstep. }
  intros a Ha. by apply (Hgen l []).
Qed.

Lemma expanded_upto_insert task (cost : gmap State nat) s c succs s' k :
  expanded_upto task cost s c succs ->
  (cost !! s' = None \/ exists c1, cost !! s' = Some c1 /\ k < c1) ->
  expanded_upto task (<[s' := k]> cost) s c succs.
Proof.
  intros [Hg Hall] Hw. split; [done|]. intros op s1 Hin Hr.
  destruct (Hall op s1 Hin Hr) as (c1 & Hc1 & Hle).
  destruct (decide (s' = s1)) as [->|Hne].
  - rewrite lookup_insert_eq. eexists. split; [done|].
    destruct Hw as [?|(c2 & ? & ?)]; [congruence|].
    assert (c2 = c1) by congruence. lia.
  - rewrite lookup_insert_ne by done. eauto.
Qed.

Section Optimality.

Variable task : Task.
Variable heuristic : SearchNode -> num.
Hypothesis Hadm : admissible task heuristic.
Hypothesis Hnn : nonnegative heuristic.
Variable best : list Operator.
Hypothesis Hbest : solves task best.
Hypothesis Hmin : forall ops, solves task ops -> length best <= length ops.

#[local] Abbreviation mk :=
  (ordered_node_astar : SearchNode -> num -> nat -> OpenEntry).
#[local] Abbreviation expand := (expand_successor heuristic mk).
#[local] Abbreviation body := (loop_body task heuristic mk).
#[local] Abbreviation inv := (search_inv task heuristic mk).

Lemma ordered_node_astar_policy : ordering_policy mk.
Proof. done. Qed.

Lemma admissible_finite node :
  can_reach_goal task (state node) -> heuristic node <> Inf.
Proof.
  intros (ops & sg & P & Hg) Hi. specialize (Hadm node ops sg P Hg).
  rewrite Hi in Hadm. done.
Qed.

(** The key of an entry of the frontier whose node can still reach a goal
    with [n] operators is at most [g + n]. *)
Lemma entry_f_bound st e ops sg :
  inv st -> e ∈ open st ->
  path task (state (entry_node e)) ops sg -> goal_reached task sg = true ->
  num_le (entry_f e) (of_nat (g (entry_node e) + length ops)).
Proof.
  intros I He P Hg. destruct (inv_open _ _ _ _ I _ He) as (_ & _ & Ee).
  rewrite Ee. unfold ordered_node_astar, entry_f. simpl.
  specialize (Hadm (entry_node e) ops sg P Hg).
  apply num_le_Fin_inv in Hadm as (x & -> & Hx). simpl.
  apply num_le_Fin. lia.
Qed.

(** Some entry of the frontier lies on the shortest solution, at its
    cost there. *)
Lemma frontier_has_optimal st :
  inv st -> open_or_closed task st None ->
  forall ops2 ops1 s sg,
    best = ops1 ++ ops2 ->
    path task (initial_state task) ops1 s ->
    path task s ops2 sg -> goal_reached task sg = true ->
    state_cost st !! s = Some (length ops1) ->
    exists e, e ∈ open st /\ num_le (entry_f e) (of_nat (length best)).
Proof.
  intros I Hoc. induction ops2 as [|op ops2 IH];
    intros ops1 s sg Eb P1 P2 Hg Hc.
  - destruct (Hoc _ _ Hc) as [(e & He & Es & Eg)|[[Hng _]|(? & [=] & _)]].
    + exists e. split; [done|]. rewrite Eb, length_app, <- Eg.
      eapply entry_f_bound; [done..| |done]. by rewrite Es.
    + apply path_nil_inv in P2 as ->. congruence.
  - destruct (Hoc _ _ Hc) as [(e & He & Es & Eg)|[[_ Hall]|(? & [=] & _)]].
    + exists e. split; [done|]. rewrite Eb, length_app, <- Eg.
      eapply entry_f_bound; [done..| |done]. by rewrite Es.
    + apply path_cons_inv in P2 as (s1 & Hin & P2).
      destruct (Hall op s1 Hin) as (c' & Hc' & Hle); [by exists ops2, sg|].
      destruct (inv_cost_some _ _ _ _ I _ _ Hc') as (node & Hn & Es & Eg).
      destruct (inv_pushed_ok _ _ _ _ I _ Hn) as [Pn Ln].
      assert (Hs : solves task (extract_solution node ++ ops2)).
      { exists sg. split; [|done]. eapply path_app; [done|]. by rewrite Es. }
      apply Hmin in Hs. rewrite Eb, !length_app in Hs. simpl in Hs.
      apply (IH (ops1 ++ [op]) s1 sg).
      * by rewrite <- app_assoc.
      * by eapply path_snoc.
      * done.
      * done.
      * rewrite Hc', length_app. simpl. f_equal. lia.
Qed.

Lemma initial_cost st :
  inv st -> state_cost st !! initial_state task = Some 0.
Proof.
  intros I.
  destruct (inv_cost_min _ _ _ _ I _ (inv_root _ _ _ _ I)) as (c & Hc & Hle).
  simpl in *. rewrite Hc. f_equal. lia.
Qed.

Lemma frontier_bound st :
  inv st -> open_or_closed task st None ->
  exists e, e ∈ open st /\ num_le (entry_f e) (of_nat (length best)).
Proof.
  intros I Hoc. destruct Hbest as (sg & P & Hg).
  apply (frontier_has_optimal st I Hoc best [] (initial_state task) sg);
    [done|constructor|done|done|]. by apply initial_cost.
Qed.

(** The popped node is no deeper than the shortest solution is long. *)
Lemma popped_bound st popped rest :
  inv st -> open_or_closed task st None ->
  heappop (open st) = Some (popped, rest) ->
  g (entry_node popped) <= length best.
Proof.
  intros I Hoc E. destruct (frontier_bound st I Hoc) as (e & He & Hle).
  pose proof (heappop_min _ _ _ E e He) as Hmin'.
  assert (Hf : num_le (entry_f popped) (entry_f e)).
  { unfold num_le, num_leb. apply negb_true_iff, not_true_is_false.
    intros Hlt. apply not_true_iff_false in Hmin'. apply Hmin'.
    apply entry_ltb_lex. by left. }
  pose proof (num_le_trans _ _ _ Hf Hle) as Hk.
  assert (Hin : popped ∈ open st).
  { rewrite (heappop_perm _ _ _ E). apply list_elem_of_here. }
  destruct (inv_open _ _ _ _ I _ Hin) as (_ & _ & Ee).
  rewrite Ee in Hk. unfold ordered_node_astar, entry_f in Hk. simpl in Hk.
  pose proof (Hnn (entry_node popped)) as Hn.
  destruct (heuristic (entry_node popped)) as [y|]; [|done].
  simpl in Hk. apply num_le_Fin in Hk, Hn. lia.
Qed.

Lemma open_or_closed_ext st st' current :
  state_cost st' = state_cost st -> open st' = open st ->
  open_or_closed task st current -> open_or_closed task st' current.
Proof. unfold open_or_closed. intros -> ->. done. Qed.

(** A stale entry is not the one that a state of the table waits for. *)
Lemma open_or_closed_stale st popped rest :
  open_or_closed task st None ->
  heappop (open st) = Some (popped, rest) ->
  (exists c, state_cost st !! state (entry_node popped) = Some c /\
             c < g (entry_node popped)) ->
  open_or_closed task (set_open st rest) None.
Proof.
  intros Hoc E (c0 & Hc0 & Hlt) s c Hc. simpl in *.
  destruct (Hoc _ _ Hc) as [(e & He & Es & Eg)|[?|?]]; [|by right; left|by right; right].
  left. exists e. split; [|done].
  apply (heappop_elem _ _ _ E) in He as [->|He]; [|done].
  rewrite Es in Hc0. assert (c0 = c) by congruence. lia.
Qed.

(** The popped entry, when it is expanded, becomes the current one. *)
Lemma open_or_closed_popped st popped rest :
  open_or_closed task st None ->
  heappop (open st) = Some (popped, rest) ->
  goal_reached task (state (entry_node popped)) = false ->
  open_or_closed task (set_open st rest)
    (Some (state (entry_node popped), g (entry_node popped), [])).
Proof.
  intros Hoc E Hg s c Hc. simpl in *.
  destruct (Hoc _ _ Hc) as [(e & He & Es & Eg)|[?|(? & [=] & _)]]; [|by right; left].
  apply (heappop_elem _ _ _ E) in He as [->|He].
  - right; right. exists []. rewrite Es, Eg. split; [done|].
    split; [by rewrite <- Es|]. by intros op s' ?%elem_of_nil.
  - left. by exists e.
Qed.

(** One successor more has been dealt with. *)
Lemma open_or_closed_expand st node done op s' :
  state_cost st !! state node = Some (g node) ->
  open_or_closed task st (Some (state node, g node, done)) ->
  state_cost (expand node (g node) st (op, s')) !! state node
  = Some (g node) /\
  open_or_closed task (expand node (g node) st (op, s'))
    (Some (state node, g node, done ++ [(op, s')])).
Proof.
  intros Hc0 Hoc.
  destruct (expand_successor_cases heuristic mk node (g node) st op s')
    as [[-> Hno]|(Hh & Hw & ->)].
  - split; [done|]. intros s c Hc.
    destruct (Hoc _ _ Hc) as [?|[?|(done' & [= <- <- <-] & Hg & Hall)]];
      [by left|by right; left|].
    right; right. eexists. split; [done|]. split; [done|].
    intros op1 s1 [Hin|Hin]%elem_of_app Hr; [by eapply Hall|].
    apply list_elem_of_singleton in Hin as [= -> ->].
    destruct Hno as [Hi|(c1 & Hc1 & Hle)]; [|eauto].
    by apply (admissible_finite (make_child_node node op s')) in Hr.
  - simpl.
    assert (Hne : s' <> state node).
    { intros ->. destruct Hw as [?|(c1 & ? & ?)]; [congruence|].
      assert (c1 = g node) by congruence. lia. }
    split; [by rewrite lookup_insert_ne|].
    unfold open_or_closed. simpl.
    intros s c. destruct (decide (s' = s)) as [<-|Hns].
    + rewrite lookup_insert_eq. intros [= <-]. left. eexists.
      split; [apply list_elem_of_here|]. done.
    + rewrite lookup_insert_ne by done. intros Hc.
      destruct (Hoc _ _ Hc)
        as [(e & He & Es & Eg)|[Hx|(done' & [= <- <- <-] & Hx)]].
      * left. exists e. split; [by apply list_elem_of_further|done].
      * right; left. by apply expanded_upto_insert.
      * right; right. eexists. split; [done|].
        pose proof (expanded_upto_insert _ _ _ _ _ s' (g node + 1) Hx Hw)
          as [Hg Hall].
        split; [done|].
        intros op1 s1 [Hin|Hin]%elem_of_app Hr; [by eapply Hall|].
        apply list_elem_of_singleton in Hin as [= -> ->].
        rewrite lookup_insert_eq. eauto.
Qed.

Lemma open_or_closed_fold st node :
  state_cost st !! state node = Some (g node) ->
  open_or_closed task st (Some (state node, g node, [])) ->
  open_or_closed task
    (fold_left (expand node (g node))
       (get_successor_states task (state node)) st) None.
Proof.
  intros Hc Hoc.
  set (succs := get_successor_states task (state node)).
  pose proof (fold_left_prefix_inv (expand node (g node))
    (fun st done =>
       state_cost st !! state node = Some (g node) /\
       open_or_closed task st (Some (state node, g node, done))) succs) as Hf.
  destruct (Hf ltac:(intros a done [op s'] todo _ [? ?];
                     by apply open_or_closed_expand) st (conj Hc Hoc))
    as [_ Hend].
  intros s c Hcs.
  destruct (Hend _ _ Hcs) as [?|[?|(done' & [= <- <- <-] & Hx)]];
    [by left|by right; left|by right; left].
Qed.

(** The invariant of the optimality proof holds after every round, the
    round makes the state smaller, and a returned solution is shortest. *)
Lemma optimal_round st popped rest :
  inv st /\ open_or_closed task st None ->
  heappop (open st) = Some (popped, rest) ->
  match body (set_open st rest) popped with
  | Return solution =>
      solves task solution /\ length solution = length best
  | Continue st' =>
      (inv st' /\ open_or_closed task st' None) /\
      measure_lt (list_to_set (within task (S (length best)))) st' st
  end.
Proof.
  intros [I Hoc] E.
  pose proof (popped_bound st popped rest I Hoc E) as Hk.
  assert (Hin : popped ∈ open st).
  { rewrite (heappop_perm _ _ _ E). apply list_elem_of_here. }
  destruct (inv_open _ _ _ _ I _ Hin) as (Hp & _).
  destruct (inv_pushed_ok _ _ _ _ I _ Hp) as [Pn Ln].
  destruct (inv_cost_min _ _ _ _ I _ Hp) as (c & Hc & Hle).
  destruct (update_besth_fields (set_open st rest) (entry_h popped))
    as (Ec & _ & Eo & _).
  destruct (body (set_open st rest) popped) as [solution|st'] eqn:Hb.
  - destruct (loop_body_return task heuristic mk _ _ _ _ I E Hb)
      as (-> & _ & _ & _ & Hs).
    split; [done|]. apply Hmin in Hs. lia.
  - split; [split|].
    + by eapply (search_inv_body task heuristic mk ordered_node_astar_policy).
    + destruct (loop_body_cases task heuristic mk (set_open st rest) popped)
        as [(Hst & Hy)|[(_ & _ & Hy)|(Hf & Hg & Hy)]];
        rewrite Hb in Hy; [|done|]; injection Hy as ->.
      * apply (open_or_closed_ext (set_open st rest)); [done..|].
        by eapply open_or_closed_stale.
      * simpl in Hf. specialize (Hf _ Hc).
        assert (c = g (entry_node popped)) as -> by lia.
        apply (open_or_closed_ext
                 (fold_left (expand (entry_node popped) (g (entry_node popped)))
                    (get_successor_states task (state (entry_node popped)))
                    (incr_expansions
                       (update_besth (set_open st rest) (entry_h popped)))));
          [done..|].
        apply open_or_closed_fold; [by simpl; rewrite Ec|].
        apply (open_or_closed_ext (set_open st rest)); [done..|].
        by apply open_or_closed_popped.
    + eapply loop_body_measure; [done..|].
      destruct (loop_body_cases task heuristic mk (set_open st rest) popped)
        as [(Hst & _)|[(_ & _ & Hy)|_]]; [by left|by rewrite Hb in Hy|].
      right. intros op s Hs. apply elem_of_list_to_set.
      eapply within_succ; [|done]. eapply path_within; [done|lia].
Qed.

(** With the A* ordering and an admissible, non-negative heuristic the loop
    returns a shortest solution. *)
Lemma astar_loop_optimal :
  exists fuel solution,
    astar_loop task heuristic mk fuel (initial_loop_state task heuristic mk)
    = Some (Some solution) /\
    solves task solution /\ length solution = length best.
Proof.
  set (st0 := initial_loop_state task heuristic mk).
  assert (I0 : inv st0) by apply search_inv_init, ordered_node_astar_policy.
  assert (H0 : open_or_closed task st0 None).
  { intros s c. unfold st0, initial_loop_state. simpl.
    intros [<- <-]%lookup_singleton_Some. left. eexists.
    split; [apply list_elem_of_here|done]. }
  destruct (loop_terminates task heuristic mk
              (list_to_set (within task (S (length best))))
              (fun st => inv st /\ open_or_closed task st None)
              (fun r => exists solution, r = Some solution /\
                 solves task solution /\ length solution = length best))
    with (st := st0) as (fuel & result & Hr & solution & -> & Hs & Hl).
  - intros st [I Hoc] Ho. destruct (frontier_bound st I Hoc) as (e & He & _).
    rewrite Ho in He. by apply elem_of_nil in He.
  - intros st popped rest HP E.
    pose proof (optimal_round st popped rest HP E) as Hround.
    destruct (body (set_open st rest) popped); [eauto|done].
  - done.
  - eauto.
Qed.

End Optimality.


(** ** The log line before the loop *)

Lemma format_float_cases (x : num) :
  fits_float x = true /\ format_float x = None \/
  fits_float x = false /\ format_float x = Some OverflowError.
Proof. unfold format_float. destruct (fits_float x); auto. Qed.

(** When the value of the root can be logged, the call returns what the
    search returns. *)
Lemma astar_search_call_fits fuel task heuristic
    (make_open_entry : option (SearchNode -> num -> nat -> OpenEntry))
    (flag : option bool) :
  initial_h_fits task heuristic ->
  astar_search_call fuel task heuristic make_open_entry flag
  = Returned <$> astar_search fuel task heuristic make_open_entry flag.
Proof.
  unfold initial_h_fits, astar_search_call, format_float. by intros ->.
Qed.

(** Otherwise it raises, before the loop and whatever the fuel. *)
Lemma astar_search_call_raises fuel task heuristic
    (make_open_entry : option (SearchNode -> num -> nat -> OpenEntry))
    (flag : option bool) :
  ~ initial_h_fits task heuristic ->
  astar_search_call fuel task heuristic make_open_entry flag
  = Some (Raised OverflowError).
Proof.
  unfold initial_h_fits, astar_search_call, format_float.
  by destruct (fits_float _).
Qed.

(** A call returns a value exactly when the value of the root can be logged
    and the search returns that value. *)
Lemma astar_search_call_returned fuel task heuristic
    (make_open_entry : option (SearchNode -> num -> nat -> OpenEntry))
    (flag : option bool) result :
  astar_search_call fuel task heuristic make_open_entry flag
  = Some (Returned result) <->
  initial_h_fits task heuristic /\
  astar_search fuel task heuristic make_open_entry flag = Some result.
Proof.
  unfold initial_h_fits, astar_search_call, format_float.
  destruct (fits_float _).
  - destruct (astar_search _ _ _ _ _) as [r|]; simpl; split.
    + by intros [= ->].
    + by intros [_ [= ->]].
    + done.
    + by intros [_ ?].
  - split; [done|by intros [? _]].
Qed.

(** ** Termination and the result without solution *)

(** Once the loop has been entered on a task whose reachable state space is
    finite, it returns after finitely many rounds. *)
Lemma search_loop_terminates task heuristic
    (make_open_entry : option (SearchNode -> num -> nat -> OpenEntry))
    (flag : option bool) :
  ordering_policy (default ordered_node_astar make_open_entry) ->
  finite_reachable task ->
  exists fuel result,
    (forall fuel', fuel <= fuel' ->
       astar_search fuel' task heuristic make_open_entry flag = Some result) /\
    match result with
    | Some solution => solves task solution
    | None =>
        exists n st,
          iterate_loop task heuristic
            (default ordered_node_astar make_open_entry) n
            (initial_loop_state task heuristic
               (default ordered_node_astar make_open_entry)) = Some st /\
          open st = []
    end.
Proof.
  intros Hpol [states Hfin]. unfold astar_search.
  set (mk := default ordered_node_astar make_open_entry) in *.
  destruct (astar_loop_terminates task heuristic mk Hpol states
              (initial_loop_state task heuristic mk) Hfin
              (search_inv_init task heuristic mk Hpol))
    as (fuel & result & Hr & Hq).
  exists fuel, result. split.
  - intros fuel' Hle. by eapply astar_loop_fuel_mono.
  - destruct result as [solution|]; [done|].
    apply astar_loop_None in Hr as (n & st & _ & Hn & Ho). eauto.
Qed.


(** What the search returns, once the loop has been entered. *)
Lemma search_loop_result task heuristic
    (make_open_entry : option (SearchNode -> num -> nat -> OpenEntry))
    (flag : option bool) :
  ordering_policy (default ordered_node_astar make_open_entry) ->
  let mk := default ordered_node_astar make_open_entry in
  (forall fuel,
     astar_search fuel task heuristic make_open_entry flag = Some None <->
     exists n st,
       n < fuel /\
       iterate_loop task heuristic mk n
         (initial_loop_state task heuristic mk) = Some st /\
       open st = []) /\
  (forall fuel solution,
     astar_search fuel task heuristic make_open_entry flag
     = Some (Some solution) <->
     exists n st popped rest,
       n < fuel /\
       iterate_loop task heuristic mk n
         (initial_loop_state task heuristic mk) = Some st /\
       heappop (open st) = Some (popped, rest) /\
       (forall c, state_cost st !! state (entry_node popped) = Some c ->
          g (entry_node popped) <= c) /\
       goal_reached task (state (entry_node popped)) = true /\
       solution = extract_solution (entry_node popped)) /\
  (~ solvable task ->
   forall fuel result,
     astar_search fuel task heuristic make_open_entry flag = Some result ->
     result = None) /\
  (~ solvable task -> finite_reachable task ->
   exists fuel,
     astar_search fuel task heuristic make_open_entry flag = Some None).
Proof.
  intros Hpol mk. unfold astar_search. fold mk.
  assert (Hsound : ~ solvable task -> forall fuel result,
    astar_loop task heuristic mk fuel (initial_loop_state task heuristic mk)
    = Some result -> result = None).
  { intros Hno fuel [solution|] Hr; [|done]. exfalso. apply Hno.
    apply astar_loop_Some in Hr as (n & st & popped & rest & _ & Hn & E & Hb).
    pose proof (search_inv_rounds task heuristic mk Hpol n _ _
                  (search_inv_init task heuristic mk Hpol) Hn) as I.
    destruct (loop_body_return task heuristic mk _ _ _ _ I E Hb)
      as (_ & _ & _ & _ & Hs).
    by exists solution. }
  split; [|split; [|split]].
  - intros fuel. apply astar_loop_None.
  - intros fuel solution. rewrite astar_loop_Some.
    split; intros (n & st & popped & rest & Hn & Hr & E & Hb);
      exists n, st, popped, rest; (split; [done|]); (split; [done|]);
      (split; [done|]);
      by apply (loop_body_Return task heuristic mk (set_open st rest)).
  - done.
  - intros Hno [states Hfin].
    destruct (astar_loop_terminates task heuristic mk Hpol states
                (initial_loop_state task heuristic mk) Hfin
                (search_inv_init task heuristic mk Hpol))
      as (fuel & result & Hr & _).
    exists fuel. by rewrite Hr, (Hsound Hno _ _ Hr).
Qed.


Lemma entry_ltb_total (a b : OpenEntry) :
  entry_tie a <> entry_tie b -> entry_ltb a b = false -> entry_ltb b a = true.
Proof.
  destruct a as [[[fa ha] ta] na], b as [[[fb hb] tb] nb].
  unfold entry_ltb, entry_tie. simpl.
  destruct fa, fb, ha, hb; simpl;
    repeat match goal with
    | |- context [(?x =? ?y)%Z] => destruct (Z.eqb_spec x y); simpl
    | |- context [(?x <? ?y)%Z] => destruct (Z.ltb_spec x y); simpl
    | |- context [Nat.eqb ?x ?y] => destruct (Nat.eqb_spec x y); simpl
    | |- context [Nat.ltb ?x ?y] => destruct (Nat.ltb_spec x y); simpl
    end; try congruence; try lia.
Qed.

(** The tiebreakers of the entries of the frontier are pairwise distinct, so
    that the comparison of two entries is decided before it gets to the
    nodes and the least entry is unique. *)
Lemma tiebreakers_distinct task heuristic
    (make_open_entry : SearchNode -> num -> nat -> OpenEntry) c st :
  ordering_policy make_open_entry ->
  exec_point task heuristic make_open_entry c ->
  config_state c = Some st ->
  NoDup (entry_tie <$> open st).
Proof.
  intros Hpol Hpt Hc.
  pose proof (config_inv_point _ _ _ _ Hpol Hpt) as I.
  destruct c as [st0|st0 node todo|r]; simpl in Hc; [| |done];
    injection Hc as ->.
  - apply (inv_ties _ _ _ _ I).
  - destruct I as [I _]. apply (inv_ties _ _ _ _ I).
Qed.

(** Hence the popped entry is strictly less than every entry that stays:
    whatever the layout of the heap, this is the entry that [heappop]
    returns. *)
Lemma heappop_unique_least task heuristic
    (make_open_entry : SearchNode -> num -> nat -> OpenEntry) st least rest :
  ordering_policy make_open_entry ->
  exec_point task heuristic make_open_entry (AtHead st) ->
  heappop (open st) = Some (least, rest) ->
  forall e, e ∈ rest -> entry_ltb least e = true.
Proof.
  intros Hpol Hpt E e He.
  pose proof (tiebreakers_distinct _ _ _ _ st Hpol Hpt eq_refl) as Hnd.
  rewrite (heappop_perm _ _ _ E), fmap_cons in Hnd.
  apply NoDup_cons in Hnd as [Hni _].
  apply entry_ltb_total.
  - intros Et. apply Hni. rewrite <- Et. by apply list_elem_of_fmap_2.
  - eapply heappop_min; [done|]. rewrite (heappop_perm _ _ _ E).
    by apply list_elem_of_further.
Qed.

(** ** The staleness check, the cost table and the pruning of dead ends *)


(** C4: at every program point, the cost that the table holds for a state is
    the least [g] of the nodes pushed for that state so far (the root
    included), and from then on the cost held for that state never grows. *)
Theorem cost_table_minimum task heuristic make_open_entry c st :
  ordering_policy make_open_entry ->
  exec_point task heuristic make_open_entry c ->
  config_state c = Some st ->
  make_root_node (initial_state task) ∈ pushed st /\
  (forall s k, state_cost st !! s = Some k ->
     (exists node, node ∈ pushed st /\ state node = s /\ g node = k) /\
     (forall node, node ∈ pushed st -> state node = s -> k <= g node)) /\
  (forall c' st', rtc (exec task heuristic make_open_entry) c c' ->
     config_state c' = Some st' ->
     forall s k, state_cost st !! s = Some k ->
       exists k', state_cost st' !! s = Some k' /\ k' <= k).
Proof.
  intros Hpol Hpt Hc.
  pose proof (config_inv_point _ _ _ _ Hpol Hpt) as I.
  assert (I' : search_inv task heuristic make_open_entry st).
  { destruct c as [st0|st0 node todo|r]; simpl in Hc; [| |done];
      injection Hc as ->; [done|]. by destruct I. }
  split; [|split].
  - apply (inv_root _ _ _ _ I').
  - intros s k Hk. split; [by apply (inv_cost_some _ _ _ _ I')|].
    intros node Hn <-. destruct (inv_cost_min _ _ _ _ I' _ Hn) as (k' & Hk' & ?).
    assert (k' = k) by congruence. lia.
  - intros c' st' Hr Hc'. by eapply cost_steps_le.
Qed.

(** C5: in the expansion the child costs [new_g = g + 1], one operator more
    than its parent; a child with a finite heuristic value is pushed exactly
    when its state is not in the table or [new_g] is strictly less than the
    cost recorded there; and a push records [new_g] in the table and
    increments the tiebreaker before the entry is made with it. *)
Theorem expansion_step (heuristic : SearchNode -> num)
    (make_open_entry : SearchNode -> num -> nat -> OpenEntry)
    st pop_node op new_state :
  let child := make_child_node pop_node op new_state in
  let new_g := g pop_node + 1 in
  let st' := expand_successor heuristic make_open_entry pop_node (g pop_node)
               st (op, new_state) in
  let worth := state_cost st !! new_state = None \/
               exists c, state_cost st !! new_state = Some c /\ new_g < c in
  heuristic child <> Inf ->
  g child = new_g /\
  (length (open st') = S (length (open st)) <-> worth) /\
  (worth ->
     state_cost st' = <[new_state := new_g]> (state_cost st) /\
     node_tiebreaker st' = node_tiebreaker st + 1 /\
     open st' = heappush (open st)
                  (make_open_entry child (heuristic child)
                     (node_tiebreaker st + 1)) /\
     pushed st' = entry_node (make_open_entry child (heuristic child)
                     (node_tiebreaker st + 1)) :: pushed st) /\
  (~ worth -> st' = st).
Proof.
  intros child new_g st' worth Hh.
  split; [done|].
  destruct (expand_successor_cases heuristic make_open_entry
              pop_node (g pop_node) st op new_state)
    as [[E Hno]|(_ & Hw & E)]; fold st' in E; rewrite E.
  - assert (Hnw : ~ worth).
    { destruct Hno as [?|(c & Hc & Hle)]; [done|].
      intros [Hn|(c' & Hc' & Hlt)]; [congruence|].
      assert (c' = c) by congruence. unfold new_g in *. lia. }
    split; [split; [lia|done]|]. split; done.
  - simpl. split; [done|]. split; done.
Qed.

(** C6: a child whose heuristic value is [+infinity] changes nothing: it is
    not pushed and the table stays as it is. Hence a state other than the
    initial one, all of whose child nodes have the value [+infinity], is at
    no program point a key of the table, the state of an entry of the
    frontier, or the state of a node that was ever pushed. *)
Theorem dead_end_pruning task heuristic make_open_entry c st s :
  ordering_policy make_open_entry ->
  s <> initial_state task ->
  (forall p op, (op, s) ∈ get_successor_states task (state p) ->
     heuristic (make_child_node p op s) = Inf) ->
  exec_point task heuristic make_open_entry c ->
  config_state c = Some st ->
  (forall st0 pop_node pop_g op s',
     heuristic (make_child_node pop_node op s') = Inf ->
     expand_successor heuristic make_open_entry pop_node pop_g st0 (op, s')
     = st0) /\
  state_cost st !! s = None /\
  (forall e, e ∈ open st -> state (entry_node e) <> s) /\
  (forall node, node ∈ pushed st -> state node <> s).
Proof.
  intros Hpol Hs Hinf Hpt Hc.
  pose proof (config_inv_point _ _ _ _ Hpol Hpt) as I.
  assert (I' : search_inv task heuristic make_open_entry st).
  { destruct c as [st0|st0 node todo|r]; simpl in Hc; [| |done];
      injection Hc as ->; [done|]. by destruct I. }
  assert (Hp : forall node, node ∈ pushed st -> state node <> s).
  { intros node Hn Es.
    destruct (inv_pushed_gen _ _ _ _ I' _ Hn) as [->|(p & op & En & Hin & Hf)].
    - done.
    - apply Hf. rewrite En, Es. apply Hinf. by rewrite <- Es. }
  split; [|split; [|split]]; [| | |done].
  - intros st0 pop_node pop_g op s' Hi. unfold expand_successor.
    by rewrite Hi.
  - destruct (state_cost st !! s) as [k|] eqn:Hk; [|done].
    destruct (inv_cost_some _ _ _ _ I' _ _ Hk) as (node & Hn & Es & _).
    by destruct (Hp _ Hn).
  - intros e He. apply Hp. by apply (inv_open _ _ _ _ I').
Qed.

(** ** The ordering policies *)


(** ** The arguments with a default *)

(** C9: the argument [use_relaxed_plan] has no effect on the result of
    [astar_search], [greedy_best_first_search] or [weighted_astar_search]. *)
Theorem use_relaxed_plan_ignored fuel task heuristic
    (make_open_entry : option (SearchNode -> num -> nat -> OpenEntry))
    (weight : option positive) (flag1 flag2 : option bool) :
  astar_search fuel task heuristic make_open_entry flag1
  = astar_search fuel task heuristic make_open_entry flag2 /\
  greedy_best_first_search fuel task heuristic flag1
  = greedy_best_first_search fuel task heuristic flag2 /\
  weighted_astar_search fuel task heuristic weight flag1
  = weighted_astar_search fuel task heuristic weight flag2.
Proof. done. Qed.

(** C10: without a weight, [weighted_astar_search] searches with the weight
    5, that is with [astar_search] and the policy
    [ordered_node_weighted_astar 5], whose key is [g + 5 * h]. *)
Theorem weighted_astar_default_weight fuel task heuristic
    (flag : option bool) :
  weighted_astar_search fuel task heuristic None flag
  = astar_search fuel task heuristic
      (Some (ordered_node_weighted_astar 5)) flag /\
  (forall node (y : Z) tie,
     entry_f (ordered_node_weighted_astar 5 node (Fin y) tie)
     = Fin (Z.of_nat (g node) + 5 * y)).
Proof. done. Qed.

End Properties.

(** * Instances *)

(** ** The chain *)

Lemma chain_path s ops s' : path chain_task s ops s' -> s' = s + length ops.
Proof.
  induction 1 as [s|s op s1 ops s2 Hin _ IH]; simpl; [lia|].
  cbn [chain_task get_successor_states] in Hin.
  destruct (Nat.ltb s 3); [|by apply elem_of_nil in Hin].
  apply list_elem_of_singleton in Hin as [= -> ->]. lia.
Qed.

Lemma chain_solves : solves chain_task [0; 1; 2].
Proof.
  exists 3. split; [|done].
  repeat (econstructor; [apply list_elem_of_here|]). constructor.
Qed.

Lemma chain_admissible : admissible chain_task chain_h.
Proof.
  intros node ops sg P Hg. apply chain_path in P.
  apply Nat.eqb_eq in Hg. unfold chain_h, of_nat.
  apply num_le_Fin. lia.
Qed.

Lemma chain_consistent : consistent chain_task chain_h.
Proof.
  intros node op s Hin. cbn [chain_task get_successor_states] in Hin.
  unfold chain_h. simpl.
  destruct (Nat.ltb_spec (state node) 3); [|by apply elem_of_nil in Hin].
  apply list_elem_of_singleton in Hin as [= -> ->].
  apply num_le_Fin. lia.
Qed.

Lemma chain_nonnegative : nonnegative chain_h.
Proof. intros node. apply num_le_Fin. lia. Qed.


(** ** The detour *)

Lemma detour_finite : finite_reachable detour_task.
Proof.
  exists [0; 1; 2; 3; 4; 5]. apply reachable_closed.
  - apply list_elem_of_here.
  - intros s op s' Hs Hin.
    repeat (apply elem_of_cons in Hs as [->|Hs];
            [simpl in Hin;
             repeat (apply elem_of_cons in Hin as [[= -> ->]|Hin];
                     [repeat constructor|]);
             by apply elem_of_nil in Hin|]).
    by apply elem_of_nil in Hs.
Qed.


Lemma chain_finite : finite_reachable chain_task.
Proof.
  exists [0; 1; 2; 3]. apply reachable_closed.
  - apply list_elem_of_here.
  - intros s op s' Hs Hin.
    repeat (apply elem_of_cons in Hs as [->|Hs];
            [simpl in Hin;
             repeat (apply elem_of_cons in Hin as [[= -> ->]|Hin];
                     [repeat constructor|]);
             by apply elem_of_nil in Hin|]).
    by apply elem_of_nil in Hs.
Qed.

Lemma huge_h_raises fuel (task : Task nat nat)
    (make_open_entry :
       option (SearchNode nat nat -> num -> nat -> OpenEntry nat nat))
    (flag : option bool) :
  astar_search_call fuel task huge_h make_open_entry flag
  = Some (Raised OverflowError).
Proof. apply astar_search_call_raises. by vm_compute. Qed.


Lemma detour_state_point :
  exec_point detour_task detour_h ordered_node_greedy_best_first
    (AtHead detour_state).
Proof. apply (exec_steps_rtc _ _ _ 13). by vm_compute. Qed.


Lemma cost_table_minimum_witness :
  make_root_node 0 ∈ pushed detour_state /\
  (forall s k, state_cost detour_state !! s = Some k ->
     (exists node,
        node ∈ pushed detour_state /\ state node = s /\ g node = k) /\
     (forall node,
        node ∈ pushed detour_state -> state node = s -> k <= g node)) /\
  (forall c' st',
     rtc (exec detour_task detour_h ordered_node_greedy_best_first)
       (AtHead detour_state) c' ->
     config_state c' = Some st' ->
     forall s k, state_cost detour_state !! s = Some k ->
       exists k', state_cost st' !! s = Some k' /\ k' <= k).
Proof.
  apply (cost_table_minimum detour_task detour_h
           ordered_node_greedy_best_first (AtHead detour_state) detour_state).
  - intros node h tie. simpl. done.
  - exact detour_state_point.
  - reflexivity.
Defined.

Lemma expansion_step_witness :
  let st := initial_loop_state chain_task chain_h ordered_node_astar in
  let root := make_root_node 0 in
  let child := make_child_node root 0 1 in
  let st' := expand_successor chain_h ordered_node_astar root 0 st (0, 1) in
  state_cost st' = <[1 := 1]> (state_cost st) /\
  node_tiebreaker st' = 1 /\
  open st' = heappush (open st) (ordered_node_astar child (chain_h child) 1) /\
  pushed st' = child :: pushed st.
Proof.
  intros st root child st'.
  destruct (expansion_step chain_h ordered_node_astar st root 0 1)
    as (_ & _ & Hpush & _).
  - discriminate.
  - apply Hpush. left. reflexivity.
Defined.

Lemma wall_state_point :
  exec_point detour_task wall_h ordered_node_astar (AtHead wall_state).
Proof. apply (exec_steps_rtc _ _ _ 4). by vm_compute. Qed.

Lemma dead_end_pruning_witness :
  (forall st0 pop_node pop_g op s',
     wall_h (make_child_node pop_node op s') = Inf ->
     expand_successor wall_h ordered_node_astar pop_node pop_g st0 (op, s')
     = st0) /\
  state_cost wall_state !! 1 = None /\
  (forall e, e ∈ open wall_state -> state (entry_node e) <> 1) /\
  (forall node, node ∈ pushed wall_state -> state node <> 1).
Proof.
  apply (dead_end_pruning detour_task wall_h ordered_node_astar
           (AtHead wall_state) wall_state 1).
  - intros node h tie. simpl. done.
  - simpl. lia.
  - intros p op _. reflexivity.
  - exact wall_state_point.
  - reflexivity.
Defined.

(** ** The task without solution *)

Lemma stuck_reachable s : reachable stuck_task s -> s ∈ [0; 1].
Proof.
  apply reachable_closed.
  - apply list_elem_of_here.
  - intros s0 op s' Hs Hin.
    repeat (apply elem_of_cons in Hs as [->|Hs];
            [simpl in Hin;
             repeat (apply elem_of_cons in Hin as [[= -> ->]|Hin];
                     [repeat constructor|]);
             by apply elem_of_nil in Hin|]).
    by apply elem_of_nil in Hs.
Qed.

Lemma stuck_unsolvable : ~ solvable stuck_task.
Proof.
  intros (ops & sg & P & Hg).
  assert (Hs : sg ∈ [0; 1]) by (apply stuck_reachable; by exists ops).
  repeat (apply elem_of_cons in Hs as [->|Hs]; [done|]).
  by apply elem_of_nil in Hs.
Qed.



(** ** Runs *)

Example float_overflow_edge :
  fits_float (Fin (float_overflow - 1)) = true /\
  fits_float (Fin float_overflow) = false /\
  fits_float (Fin (- float_overflow)) = false /\
  fits_float Inf = true.
Proof. by vm_compute. Qed.

Example chain_call :
  astar_search_call 10 chain_task chain_h None None
  = Some (Returned (Some [0; 1; 2])).
Proof. by vm_compute. Qed.

Example huge_call_greedy :
  greedy_best_first_search_call 10 chain_task huge_h None
  = Some (Raised OverflowError).
Proof. by vm_compute. Qed.

Example huge_call_weighted :
  weighted_astar_search_call 10 stuck_task huge_h None None
  = Some (Raised OverflowError).
Proof. by vm_compute. Qed.

Example chain_run :
  astar_search 10 chain_task chain_h None None = Some (Some [0; 1; 2]).
Proof. by vm_compute. Qed.

Example chain_run_greedy :
  greedy_best_first_search 10 chain_task chain_h None
  = Some (Some [0; 1; 2]).
Proof. by vm_compute. Qed.

Example detour_run :
  weighted_astar_search 20 detour_task detour_h None None
  = Some (Some [50; 53; 13]).
Proof. by vm_compute. Qed.

(** The initial state is a goal: the empty operator sequence. *)
Example solved_run :
  astar_search 10 (mkTask 0 (fun _ => true) (fun s => [(0, S s)])) zero_h
    None None = Some (Some []).
Proof. by vm_compute. Qed.

Example stuck_run :
  astar_search 10 stuck_task zero_h None None = Some None.
Proof. by vm_compute. Qed.

(** In [detour_state] the stale entry for state [3] is discarded without
    being counted as an expansion. *)
Example detour_discard :
  match
    exec_step detour_task detour_h ordered_node_greedy_best_first
      (AtHead detour_state)
  with
  | Some (AtHead st) =>
      expansions st = expansions detour_state /\
      length (open st) = 1 /\ state_cost st !! 3 = Some 2
  | _ => False
  end.
Proof. by vm_compute. Qed.

(** * Further properties of the search *)

Section Further.

Context {State : Type} {State_eq : EqDecision State}
  {State_countable : Countable State} {Operator : Type}.

#[local] Abbreviation Task := (Task State Operator).
#[local] Abbreviation SearchNode := (SearchNode State Operator).
#[local] Abbreviation OpenEntry := (OpenEntry State Operator).
#[local] Abbreviation LoopState := (LoopState State Operator).
#[local] Abbreviation config := (config State Operator).

Implicit Types (task : Task) (node : SearchNode) (e : OpenEntry)
  (st : LoopState) (s : State) (ops : list Operator).

(** ** What is returned *)

(** X1: an operator sequence that the search returns solves the task:
    applied in turn from the initial state, its operators lead to a goal
    state. This holds for every heuristic, every ordering policy and every
    amount of fuel. *)
Theorem returned_solution_solves task heuristic
    (make_open_entry : option (SearchNode -> num -> nat -> OpenEntry))
    (flag : option bool) fuel solution :
  ordering_policy (default ordered_node_astar make_open_entry) ->
  astar_search fuel task heuristic make_open_entry flag
  = Some (Some solution) ->
  solves task solution.
Proof.
  intros Hpol. unfold astar_search.
  set (mk := default ordered_node_astar make_open_entry) in *.
  intros Hr.
  apply astar_loop_Some in Hr as (n & st & popped & rest & _ & Hn & E & Hb).
  pose proof (search_inv_rounds task heuristic mk Hpol n _ _
                (search_inv_init task heuristic mk Hpol) Hn) as I.
  by destruct (loop_body_return task heuristic mk _ _ _ _ I E Hb)
    as (_ & _ & _ & _ & Hs).
Qed.

(** When the initial state is a goal, the first round of the loop returns
    the empty operator sequence. *)
Lemma search_loop_initial_goal task heuristic
    (make_open_entry : option (SearchNode -> num -> nat -> OpenEntry))
    (flag : option bool) fuel :
  ordering_policy (default ordered_node_astar make_open_entry) ->
  goal_reached task (initial_state task) = true ->
  astar_search (S fuel) task heuristic make_open_entry flag = Some (Some []).
Proof.
  intros Hpol Hg. unfold astar_search.
  set (mk := default ordered_node_astar make_open_entry) in *.
  set (root := make_root_node (initial_state task) : SearchNode).
  destruct (Hpol root (heuristic root) 0) as (_ & _ & En).
  apply astar_loop_Some. exists 0, (initial_loop_state task heuristic mk).
  exists (mk root (heuristic root) 0), [].
  split; [lia|]. split; [done|]. split; [done|].
  apply loop_body_Return. rewrite En. simpl. split; [|done].
  intros c [_ <-]%lookup_singleton_Some. done.
Qed.


Lemma fold_expand_pruned task heuristic
    (make_open_entry : SearchNode -> num -> nat -> OpenEntry)
    pop_node pop_g succs : forall st,
  (forall op s, (op, s) ∈ succs ->
     heuristic (make_child_node pop_node op s) = Inf) ->
  fold_left (expand_successor heuristic make_open_entry pop_node pop_g)
    succs st = st.
Proof.
  induction succs as [|[op s] succs IH]; intros st Hinf; simpl; [done|].
  assert (E : expand_successor heuristic make_open_entry pop_node pop_g st
                (op, s) = st).
  { unfold expand_successor. rewrite Hinf; [done|apply list_elem_of_here]. }
  rewrite E. apply IH. intros. by apply Hinf, list_elem_of_further.
Qed.

Lemma iterate_loop_one task heuristic
    (make_open_entry : SearchNode -> num -> nat -> OpenEntry)
    st popped rest st' :
  heappop (open st) = Some (popped, rest) ->
  loop_body task heuristic make_open_entry (set_open st rest) popped
  = Continue st' ->
  iterate_loop task heuristic make_open_entry 1 st = Some st'.
Proof. intros E Hb. simpl. by rewrite E, Hb. Qed.

(** When the initial state is no goal and each of its children is pruned,
    the second round of the loop finds the frontier empty. *)
Lemma search_loop_all_children_pruned task heuristic
    (make_open_entry : option (SearchNode -> num -> nat -> OpenEntry))
    (flag : option bool) fuel :
  ordering_policy (default ordered_node_astar make_open_entry) ->
  goal_reached task (initial_state task) = false ->
  (forall op s,
     (op, s) ∈ get_successor_states task (initial_state task) ->
     heuristic (make_child_node (make_root_node (initial_state task)) op s)
     = Inf) ->
  astar_search (S (S fuel)) task heuristic make_open_entry flag = Some None.
Proof.
  intros Hpol Hg Hinf. unfold astar_search.
  set (mk := default ordered_node_astar make_open_entry) in *.
  set (root := make_root_node (initial_state task)) in *.
  destruct (Hpol root (heuristic root) 0) as (_ & _ & En).
  set (st0 := initial_loop_state task heuristic mk).
  set (popped := mk root (heuristic root) 0) in *.
  assert (E : heappop (open st0) = Some (popped, [])) by done.
  apply astar_loop_None.
  destruct (loop_body_cases task heuristic mk (set_open st0 []) popped)
    as [((c & Hc & Hlt) & _)|[(_ & Hg' & _)|(_ & _ & Hb)]].
  - rewrite En in Hlt. simpl in Hlt. lia.
  - rewrite En in Hg'. simpl in Hg'. congruence.
  - rewrite En in Hb. rewrite fold_expand_pruned in Hb by done.
    eexists 1, _. split; [lia|]. split.
    + by apply (iterate_loop_one _ _ _ _ _ _ _ E Hb).
    + simpl. by destruct (update_besth_fields (set_open st0 []) (entry_h popped))
        as (_ & _ & -> & _).
Qed.


(** X4: at every program point the search has stayed within the reachable
    states and its costs are those of real paths: a cost in the table is the
    length of an operator sequence that leads from the initial state to that
    state, and the node of an entry of the frontier spells, through its
    parents, such a sequence of [g] operators to its own state. *)
Theorem costs_are_path_lengths task heuristic
    (make_open_entry : SearchNode -> num -> nat -> OpenEntry) c st :
  ordering_policy make_open_entry ->
  exec_point task heuristic make_open_entry c ->
  config_state c = Some st ->
  (forall s k, state_cost st !! s = Some k ->
     exists ops, path task (initial_state task) ops s /\ length ops = k) /\
  (forall e, e ∈ open st ->
     path task (initial_state task) (extract_solution (entry_node e))
       (state (entry_node e)) /\
     length (extract_solution (entry_node e)) = g (entry_node e) /\
     exists k, state_cost st !! state (entry_node e) = Some k /\
               k <= g (entry_node e)).
Proof.
  intros Hpol Hpt Hc.
  pose proof (config_inv_point _ _ _ _ Hpol Hpt) as I.
  assert (I' : search_inv task heuristic make_open_entry st).
  { destruct c as [st0|st0 node todo|r]; simpl in Hc; [| |done];
      injection Hc as ->; [done|]. by destruct I. }
  split.
  - intros s k Hk.
    destruct (inv_cost_some _ _ _ _ I' _ _ Hk) as (node & Hn & <- & <-).
    destruct (inv_pushed_ok _ _ _ _ I' _ Hn) as [P L]. eauto.
  - intros e He. destruct (inv_open _ _ _ _ I' _ He) as (Hn & _).
    destruct (inv_pushed_ok _ _ _ _ I' _ Hn) as [P L].
    split; [done|]. split; [done|]. by apply (inv_cost_min _ _ _ _ I').
Qed.

(** ** Policies that agree *)

Section Agree.

Variable task : Task.
Variable heuristic : SearchNode -> num.
Variables mk1 mk2 : SearchNode -> num -> nat -> OpenEntry.
Hypothesis Hagree : forall node h tie, mk1 node h tie = mk2 node h tie.

Lemma expand_successor_agree pop_node pop_g st succ :
  expand_successor heuristic mk1 pop_node pop_g st succ
  = expand_successor heuristic mk2 pop_node pop_g st succ.
Proof. destruct succ as [op s]. unfold expand_successor. by rewrite Hagree. Qed.

Lemma fold_expand_agree pop_node pop_g succs : forall st,
  fold_left (expand_successor heuristic mk1 pop_node pop_g) succs st
  = fold_left (expand_successor heuristic mk2 pop_node pop_g) succs st.
Proof.
  induction succs as [|succ succs IH]; intros st; simpl; [done|].
  by rewrite expand_successor_agree, IH.
Qed.

Lemma loop_body_agree st popped :
  loop_body task heuristic mk1 st popped
  = loop_body task heuristic mk2 st popped.
Proof.
  destruct popped as [[[f h] tie] node]. unfold loop_body.
  by rewrite fold_expand_agree.
Qed.

Lemma astar_loop_agree fuel : forall st,
  astar_loop task heuristic mk1 fuel st = astar_loop task heuristic mk2 fuel st.
Proof.
  induction fuel as [|fuel IH]; intros st; simpl; [done|].
  destruct (heappop (open st)) as [[popped rest]|]; [|done].
  rewrite loop_body_agree.
  by destruct (loop_body task heuristic mk2 (set_open st rest) popped).
Qed.

Lemma initial_loop_state_agree :
  initial_loop_state task heuristic mk1 = initial_loop_state task heuristic mk2.
Proof. unfold initial_loop_state. by rewrite Hagree. Qed.

End Agree.

(** X5: weighted A* with the weight 1 is A*: for every task, heuristic and
    amount of fuel the two searches return the same result. *)
Theorem weight_one_is_astar fuel task heuristic (flag1 flag2 : option bool) :
  weighted_astar_search fuel task heuristic (Some 1%positive) flag1
  = astar_search fuel task heuristic None flag2.
Proof.
  unfold weighted_astar_search, astar_search. simpl.
  assert (Hagree : forall node h tie,
    ordered_node_weighted_astar 1 node h tie
    = ordered_node_astar (State := State) (Operator := Operator) node h tie).
  { intros node h tie. unfold ordered_node_weighted_astar, ordered_node_astar.
    destruct h as [y|]; simpl; [|done]. do 4 f_equal. lia. }
  rewrite (initial_loop_state_agree task heuristic _ _ Hagree).
  by apply astar_loop_agree.
Qed.

(** ** The counters and the order of the pushes *)

Lemma counters_ok_step task heuristic
    (make_open_entry : SearchNode -> num -> nat -> OpenEntry) c c' :
  counters_ok c -> exec task heuristic make_open_entry c c' ->
  counters_ok c'.
Proof.
  intros Hc Hs. destruct c as [st|st node todo|r]; [| |done].
  - destruct Hc as (H1 & H2 & H3).
    destruct (heappop (open st)) as [[popped rest]|] eqn:E.
    + pose proof (heappop_length _ _ _ E) as Hlen.
      destruct (update_besth_fields (set_open st rest) (entry_h popped))
        as (_ & Et & Eo & Ep & Ec & Ee).
      destruct (exec_head_cases task heuristic make_open_entry st popped rest E)
        as [(_ & Hx)|[(_ & _ & Hx)|(_ & _ & Hx)]];
        unfold exec in Hs; rewrite Hx in Hs; apply (inj Some) in Hs; subst c';
        simpl; rewrite ?Et, ?Eo, ?Ep, ?Ec, ?Ee; simpl; [|done|]; lia.
    + unfold exec in Hs. simpl in Hs. rewrite E in Hs.
      apply (inj Some) in Hs. by subst c'.
  - destruct Hc as (H1 & H2 & H3). destruct todo as [|[op s] todo].
    + apply (inj Some) in Hs. subst c'. simpl. lia.
    + unfold exec in Hs. rewrite exec_step_for_cons in Hs.
      apply (inj Some) in Hs. subst c'. cbn [counters_ok].
      destruct (expand_successor_cases heuristic make_open_entry
                  node (g node) st op s) as [[-> _]|(_ & _ & ->)];
        simpl; lia.
Qed.

(** X6: at the head of the loop [counter] and [expansions] are equal (inside
    the [for] loop [expansions] is one ahead); the expansions and the
    entries still in the frontier together are never more than the pushes;
    and the tiebreaker is the number of pushes after that of the root. This
    holds for every callable passed as [make_open_entry]. *)
Theorem counters_invariant task heuristic
    (make_open_entry : SearchNode -> num -> nat -> OpenEntry) c :
  exec_point task heuristic make_open_entry c ->
  counters_ok c.
Proof.
  unfold exec_point. revert c. apply rtc_ind_r.
  - simpl. lia.
  - intros c c' _ Hs IH. by eapply counters_ok_step.
Qed.

(** A property of the local variables that the pop, the bookkeeping and the
    expansion of a successor keep holds at every program point. *)
Lemma exec_point_state_ind task heuristic
    (make_open_entry : SearchNode -> num -> nat -> OpenEntry)
    (J : LoopState -> Prop) :
  ordering_policy make_open_entry ->
  J (initial_loop_state task heuristic make_open_entry) ->
  (forall st st', state_cost st' = state_cost st ->
     node_tiebreaker st' = node_tiebreaker st -> pushed st' = pushed st ->
     (forall e, e ∈ open st' -> e ∈ open st) ->
     J st -> J st') ->
  (forall st node op s,
     search_inv task heuristic make_open_entry st -> node ∈ pushed st ->
     (op, s) ∈ get_successor_states task (state node) ->
     J st ->
     J (expand_successor heuristic make_open_entry node (g node) st (op, s))) ->
  forall c st,
    exec_point task heuristic make_open_entry c ->
    config_state c = Some st -> J st.
Proof.
  intros Hpol J0 Jsub Jexp c st Hpt. revert st.
  assert (Hgen : forall c,
    rtc (exec task heuristic make_open_entry)
      (AtHead (initial_loop_state task heuristic make_open_entry)) c ->
    forall st, config_state c = Some st -> J st); [|by apply Hgen].
  clear c Hpt. apply (rtc_ind_r (fun c => forall st, config_state c = Some st -> J st)).
  - by intros st [= <-].
  - intros c c' Hr Hs IH st' Hc'.
    pose proof (config_inv_point _ _ _ _ Hpol Hr) as I.
    destruct c as [st|st node todo|r]; [| |done].
    + specialize (IH st eq_refl).
      destruct (heappop (open st)) as [[popped rest]|] eqn:E.
      * destruct (update_besth_fields (set_open st rest) (entry_h popped))
          as (Ec & Et & Eo & Ep & _).
        assert (Hsub : forall e, e ∈ rest -> e ∈ open st).
        { intros e He. rewrite (heappop_perm _ _ _ E).
          by apply list_elem_of_further. }
        destruct (exec_head_cases task heuristic make_open_entry st popped rest E)
          as [(_ & Hx)|[(_ & _ & Hx)|(_ & _ & Hx)]];
          unfold exec in Hs; rewrite Hx in Hs; apply (inj Some) in Hs;
          subst c'; simpl in Hc'; [|done|]; apply (inj Some) in Hc'; subst st';
          (eapply Jsub; [..|exact IH]; simpl; rewrite ?Ec, ?Et, ?Eo, ?Ep; done).
      * unfold exec in Hs. simpl in Hs. rewrite E in Hs.
        apply (inj Some) in Hs. by subst c'.
    + specialize (IH st eq_refl). destruct I as (I & Hn & done & Hd).
      destruct todo as [|[op s] todo].
      * apply (inj Some) in Hs. subst c'. apply (inj Some) in Hc'. subst st'.
        by eapply Jsub; [..|exact IH].
      * unfold exec in Hs. rewrite exec_step_for_cons in Hs.
        apply (inj Some) in Hs. subst c'. cbn [config_state] in Hc'.
        apply (inj Some) in Hc'. subst st'. apply Jexp; [done..| |done].
        rewrite Hd. apply elem_of_app. right. apply list_elem_of_here.
Qed.

Lemma tie_is_index_point task heuristic
    (make_open_entry : SearchNode -> num -> nat -> OpenEntry) c st :
  ordering_policy make_open_entry ->
  exec_point task heuristic make_open_entry c ->
  config_state c = Some st -> tie_is_index st.
Proof.
  intros Hpol. apply exec_point_state_ind; [done| | |].
  - unfold tie_is_index, initial_loop_state, heappush. simpl.
    set (root := make_root_node (initial_state task)).
    destruct (Hpol root (heuristic root) 0) as (_ & Et & En).
    split; [done|]. intros e ->%list_elem_of_singleton.
    rewrite Et, En. done.
  - intros st0 st' Ec Et Ep Hsub [H1 H2]. unfold tie_is_index.
    rewrite Et, Ep. split; [done|]. intros e He. by apply H2, Hsub.
  - intros st0 node op s _ _ _ [H1 H2].
    destruct (expand_successor_cases heuristic make_open_entry
                node (g node) st0 op s) as [[-> _]|(_ & _ & ->)]; [done|].
    set (child := make_child_node node op s).
    destruct (Hpol child (heuristic child) (node_tiebreaker st0 + 1))
      as (_ & Et & En).
    unfold tie_is_index. simpl. rewrite En. split; [lia|].
    intros e [->|He]%elem_of_cons.
    + rewrite Et, En, Nat.sub_diag. done.
    + destruct (H2 e He) as [Hle Hl]. split; [lia|].
      replace (node_tiebreaker st0 + 1 - entry_tie e)
        with (S (node_tiebreaker st0 - entry_tie e)) by lia.
      done.
Qed.

(** X7: the tiebreaker of an entry is the rank of its push (the root has
    0, and the list of pushed nodes, latest first, holds the node of the
    entry at that rank from its end), and of the entries with the same key
    and the same [h] the one pushed first is popped first. *)
Theorem equal_keys_first_in_first_out task heuristic
    (make_open_entry : SearchNode -> num -> nat -> OpenEntry) st least rest :
  ordering_policy make_open_entry ->
  exec_point task heuristic make_open_entry (AtHead st) ->
  heappop (open st) = Some (least, rest) ->
  (forall e, e ∈ open st ->
     entry_tie e < length (pushed st) /\
     pushed st !! (length (pushed st) - 1 - entry_tie e)
     = Some (entry_node e)) /\
  (forall e, e ∈ rest ->
     entry_f e = entry_f least -> entry_h e = entry_h least ->
     entry_tie least < entry_tie e).
Proof.
  intros Hpol Hpt E. split.
  - destruct (tie_is_index_point task heuristic make_open_entry _ st Hpol Hpt
                eq_refl) as [H1 H2].
    intros e He. destruct (H2 e He) as [Hle Hl]. split; [lia|].
    by replace (length (pushed st) - 1 - entry_tie e)
      with (node_tiebreaker st - entry_tie e) by lia.
  - intros e He Ef Eh.
    pose proof (heappop_unique_least _ _ _ _ _ _ Hpol Hpt E e He) as Hlt.
    apply entry_ltb_lex in Hlt as [Hlt|[_ [Hlt|[_ Hlt]]]]; [| |done].
    + by rewrite Ef, num_ltb_irrefl in Hlt.
    + by rewrite Eh, num_ltb_irrefl in Hlt.
Qed.

Lemma pushes_decrease_point task heuristic
    (make_open_entry : SearchNode -> num -> nat -> OpenEntry) c st :
  ordering_policy make_open_entry ->
  exec_point task heuristic make_open_entry c ->
  config_state c = Some st -> pushes_decrease (pushed st).
Proof.
  intros Hpol.
  apply (exec_point_state_ind task heuristic make_open_entry
           (fun st => pushes_decrease (pushed st))); [done| | |].
  - unfold initial_loop_state. simpl. split; [|done].
    by intros node' ?%elem_of_nil.
  - intros st0 st' _ _ Ep _ Hd. by rewrite Ep.
  - intros st0 node op s I _ _ Hd.
    destruct (expand_successor_cases heuristic make_open_entry
                node (g node) st0 op s) as [[-> _]|(_ & Hw & ->)]; [done|].
    set (child := make_child_node node op s).
    destruct (Hpol child (heuristic child) (node_tiebreaker st0 + 1))
      as (_ & _ & En).
    simpl. rewrite En. split; [|done]. intros node' Hn' Es. simpl in *.
    destruct (inv_cost_min _ _ _ _ I _ Hn') as (k & Hk & Hle).
    rewrite Es in Hk. destruct Hw as [?|(k' & Hk' & Hlt)]; [congruence|].
    assert (k' = k) by congruence. lia.
Qed.

Lemma pushes_decrease_lookup (l : list SearchNode) :
  pushes_decrease l ->
  forall i j a b, i < j -> l !! i = Some a -> l !! j = Some b ->
    state a = state b -> g a < g b.
Proof.
  induction l as [|node l IH]; intros Hd i j a b Hij Ha Hb Es; [done|].
  destruct Hd as [Hhd Htl]. destruct j as [|j]; [lia|]. simpl in Hb.
  destruct i as [|i]; simpl in Ha.
  - injection Ha as ->. apply Hhd; [|done]. by eapply list_elem_of_lookup_2.
  - apply (IH Htl i j); [lia|done..].
Qed.

(** X8: a state is pushed again only at a strictly smaller cost: of two
    nodes pushed for one state, the later one has the smaller [g]. No two
    pushed nodes have the same state and the same [g]. *)
Theorem repeated_push_is_cheaper task heuristic
    (make_open_entry : SearchNode -> num -> nat -> OpenEntry) c st :
  ordering_policy make_open_entry ->
  exec_point task heuristic make_open_entry c ->
  config_state c = Some st ->
  forall i j later earlier,
    i < j -> pushed st !! i = Some later -> pushed st !! j = Some earlier ->
    state later = state earlier -> g later < g earlier.
Proof.
  intros Hpol Hpt Hc. apply pushes_decrease_lookup.
  by eapply pushes_decrease_point.
Qed.

(** ** The frontier holds the way on *)

Lemma expanded_live_insert (live : State -> Prop) task
    (cost : gmap State nat) s c succs s' k :
  expanded_live live task cost s c succs ->
  (cost !! s' = None \/ exists c1, cost !! s' = Some c1 /\ k < c1) ->
  expanded_live live task (<[s' := k]> cost) s c succs.
Proof.
  intros [Hg Hall] Hw. split; [done|]. intros op s1 Hin Hr.
  destruct (Hall op s1 Hin Hr) as (c1 & Hc1 & Hle).
  destruct (decide (s' = s1)) as [->|Hne].
  - rewrite lookup_insert_eq. eexists. split; [done|].
    destruct Hw as [?|(c2 & ? & ?)]; [congruence|].
    assert (c2 = c1) by congruence. lia.
  - rewrite lookup_insert_ne by done. eauto.
Qed.

Section Frontier.

Variable task : Task.
Variable heuristic : SearchNode -> num.
Variable mk : SearchNode -> num -> nat -> OpenEntry.
Hypothesis Hpol : ordering_policy mk.
Variable live : State -> Prop.
Hypothesis Hlive : forall node, live (state node) -> heuristic node <> Inf.

#[local] Abbreviation expand := (expand_successor heuristic mk).
#[local] Abbreviation body := (loop_body task heuristic mk).
#[local] Abbreviation inv := (search_inv task heuristic mk).
#[local] Abbreviation foe := (frontier_or_expanded live task).

Lemma foe_ext st st' current :
  state_cost st' = state_cost st -> open st' = open st ->
  foe st current -> foe st' current.
Proof. unfold frontier_or_expanded. intros -> ->. done. Qed.

Lemma foe_stale st popped rest :
  foe st None ->
  heappop (open st) = Some (popped, rest) ->
  (exists c, state_cost st !! state (entry_node popped) = Some c /\
             c < g (entry_node popped)) ->
  foe (set_open st rest) None.
Proof.
  intros Hoc E (c0 & Hc0 & Hlt) s c Hc. simpl in *.
  destruct (Hoc _ _ Hc) as [(e & He & Es & Eg)|[?|?]];
    [|by right; left|by right; right].
  left. exists e. split; [|done].
  apply (heappop_elem _ _ _ E) in He as [->|He]; [|done].
  rewrite Es in Hc0. assert (c0 = c) by congruence. lia.
Qed.

Lemma foe_popped st popped rest :
  foe st None ->
  heappop (open st) = Some (popped, rest) ->
  goal_reached task (state (entry_node popped)) = false ->
  foe (set_open st rest)
    (Some (state (entry_node popped), g (entry_node popped), [])).
Proof.
  intros Hoc E Hg s c Hc. simpl in *.
  destruct (Hoc _ _ Hc) as [(e & He & Es & Eg)|[?|(? & [=] & _)]];
    [|by right; left].
  apply (heappop_elem _ _ _ E) in He as [->|He].
  - right; right. exists []. rewrite Es, Eg. split; [done|].
    split; [by rewrite <- Es|]. by intros op s' ?%elem_of_nil.
  - left. by exists e.
Qed.

Lemma foe_expand st node done op s' :
  state_cost st !! state node = Some (g node) ->
  foe st (Some (state node, g node, done)) ->
  state_cost (expand node (g node) st (op, s')) !! state node
  = Some (g node) /\
  foe (expand node (g node) st (op, s'))
    (Some (state node, g node, done ++ [(op, s')])).
Proof.
  intros Hc0 Hoc.
  destruct (expand_successor_cases heuristic mk node (g node) st op s')
    as [[-> Hno]|(Hh & Hw & ->)].
  - split; [done|]. intros s c Hc.
    destruct (Hoc _ _ Hc) as [?|[?|(done' & [= <- <- <-] & Hg & Hall)]];
      [by left|by right; left|].
    right; right. eexists. split; [done|]. split; [done|].
    intros op1 s1 [Hin|Hin]%elem_of_app Hr; [by eapply Hall|].
    apply list_elem_of_singleton in Hin as [= -> ->].
    destruct Hno as [Hi|(c1 & Hc1 & Hle)]; [|eauto].
    by apply (Hlive (make_child_node node op s')) in Hr.
  - set (child := make_child_node node op s').
    destruct (Hpol child (heuristic child) (node_tiebreaker st + 1))
      as (_ & _ & En).
    simpl.
    assert (Hne : s' <> state node).
    { intros ->. destruct Hw as [?|(c1 & ? & ?)]; [congruence|].
      assert (c1 = g node) by congruence. lia. }
    split; [by rewrite lookup_insert_ne|].
    unfold frontier_or_expanded. simpl.
    intros s c. destruct (decide (s' = s)) as [<-|Hns].
    + rewrite lookup_insert_eq. intros [= <-]. left. eexists.
      split; [apply list_elem_of_here|]. by rewrite En.
    + rewrite lookup_insert_ne by done. intros Hc.
      destruct (Hoc _ _ Hc)
        as [(e & He & Es & Eg)|[Hx|(done' & [= <- <- <-] & Hx)]].
      * left. exists e. split; [by apply list_elem_of_further|done].
      * right; left. by apply expanded_live_insert.
      * right; right. eexists. split; [done|].
        pose proof (expanded_live_insert _ _ _ _ _ _ s' (g node + 1) Hx Hw)
          as [Hg Hall].
        split; [done|].
        intros op1 s1 [Hin|Hin]%elem_of_app Hr; [by eapply Hall|].
        apply list_elem_of_singleton in Hin as [= -> ->].
        rewrite lookup_insert_eq. eauto.
Qed.

Lemma foe_fold st node :
  state_cost st !! state node = Some (g node) ->
  foe st (Some (state node, g node, [])) ->
  foe (fold_left (expand node (g node))
         (get_successor_states task (state node)) st) None.
Proof.
  intros Hc Hoc.
  set (succs := get_successor_states task (state node)).
  pose proof (fold_left_prefix_inv (expand node (g node))
    (fun st done =>
       state_cost st !! state node = Some (g node) /\
       foe st (Some (state node, g node, done))) succs) as Hf.
  destruct (Hf ltac:(intros a done [op s'] todo _ [? ?];
                     by apply foe_expand) st (conj Hc Hoc))
    as [_ Hend].
  intros s c Hcs.
  destruct (Hend _ _ Hcs) as [?|[?|(done' & [= <- <- <-] & Hx)]];
    [by left|by right; left|by right; left].
Qed.

Lemma foe_init : foe (initial_loop_state task heuristic mk) None.
Proof.
  intros s c. unfold initial_loop_state. simpl.
  intros [<- <-]%lookup_singleton_Some. left. eexists.
  split; [apply list_elem_of_here|].
  destruct (Hpol (make_root_node (initial_state task))
              (heuristic (make_root_node (initial_state task))) 0)
    as (_ & _ & ->). done.
Qed.

(** A round of the loop that does not return keeps the two invariants. *)
Lemma foe_round st popped rest st' :
  inv st -> foe st None ->
  heappop (open st) = Some (popped, rest) ->
  body (set_open st rest) popped = Continue st' ->
  inv st' /\ foe st' None.
Proof.
  intros I Hoc E Hb.
  split; [by eapply (search_inv_body task heuristic mk Hpol)|].
  assert (Hin : popped ∈ open st).
  { rewrite (heappop_perm _ _ _ E). apply list_elem_of_here. }
  destruct (inv_open _ _ _ _ I _ Hin) as (Hp & _).
  destruct (inv_cost_min _ _ _ _ I _ Hp) as (c & Hc & Hle).
  destruct (update_besth_fields (set_open st rest) (entry_h popped))
    as (Ec & _ & Eo & _).
  destruct (loop_body_cases task heuristic mk (set_open st rest) popped)
    as [(Hst & Hy)|[(_ & _ & Hy)|(Hf & Hg & Hy)]];
    rewrite Hb in Hy; [|done|]; injection Hy as ->.
  - apply (foe_ext (set_open st rest)); [done..|].
    by eapply foe_stale.
  - simpl in Hf. specialize (Hf _ Hc).
    assert (c = g (entry_node popped)) as -> by lia.
    apply (foe_ext
             (fold_left (expand (entry_node popped) (g (entry_node popped)))
                (get_successor_states task (state (entry_node popped)))
                (incr_expansions
                   (update_besth (set_open st rest) (entry_h popped)))));
      [done..|].
    apply foe_fold; [by simpl; rewrite Ec|].
    apply (foe_ext (set_open st rest)); [done..|].
    by apply foe_popped.
Qed.

Lemma foe_rounds n : forall st st',
  inv st -> foe st None ->
  iterate_loop task heuristic mk n st = Some st' ->
  inv st' /\ foe st' None.
Proof.
  induction n as [|n IH]; intros st st' I Hoc; simpl.
  - by intros [= <-].
  - destruct (heappop (open st)) as [[popped rest]|] eqn:E; [|done].
    destruct (body (set_open st rest) popped) as [sol|st1] eqn:Hb; [done|].
    destruct (foe_round _ _ _ _ I Hoc E Hb). by apply IH.
Qed.

Hypothesis Hback :
  forall s op s', (op, s') ∈ get_successor_states task s -> live s' -> live s.

Lemma path_live s ops t : path task s ops t -> live t -> live s.
Proof. induction 1; [done|]. intros. eapply Hback; eauto. Qed.

(** Along a shortest way to a state [t] that counts, the table holds the
    true costs up to an entry of the frontier, or all the way to [t]. *)
Lemma frontier_walk st t m :
  inv st -> foe st None -> live t ->
  (forall ops, path task (initial_state task) ops t -> m <= length ops) ->
  forall ops2 ops1 s,
    length ops1 + length ops2 = m ->
    path task (initial_state task) ops1 s -> path task s ops2 t ->
    state_cost st !! s = Some (length ops1) ->
    (exists e ops2',
       e ∈ open st /\ path task (state (entry_node e)) ops2' t /\
       g (entry_node e) + length ops2' = m) \/
    (goal_reached task t = false /\ state_cost st !! t = Some m).
Proof.
  intros I Hoc Ht Hshort. induction ops2 as [|op ops2 IH];
    intros ops1 s Hm P1 P2 Hc.
  - apply path_nil_inv in P2 as ->. simpl in Hm.
    destruct (Hoc _ _ Hc) as [(e & He & Es & Eg)|[[Hng _]|(? & [=] & _)]].
    + left. exists e, []. split; [done|]. rewrite Es. split; [constructor|].
      simpl. lia.
    + right. split; [done|]. rewrite Hc. f_equal. lia.
  - destruct (Hoc _ _ Hc) as [(e & He & Es & Eg)|[[_ Hall]|(? & [=] & _)]].
    + left. exists e, (op :: ops2). split; [done|]. rewrite Es.
      split; [done|]. lia.
    + apply path_cons_inv in P2 as (s1 & Hin & P2).
      destruct (Hall op s1 Hin) as (c' & Hc' & Hle); [by eapply path_live|].
      destruct (inv_cost_some _ _ _ _ I _ _ Hc') as (node & Hn & Es & Eg).
      destruct (inv_pushed_ok _ _ _ _ I _ Hn) as [Pn Ln].
      assert (Hs : m <= length (extract_solution node ++ ops2)).
      { apply Hshort. eapply path_app; [done|]. by rewrite Es. }
      rewrite length_app in Hs. simpl in Hm.
      apply (IH (ops1 ++ [op]) s1).
      * rewrite length_app. simpl. lia.
      * by eapply path_snoc.
      * done.
      * rewrite Hc', length_app. simpl. f_equal. lia.
Qed.

Lemma frontier_reaches st t m :
  inv st -> foe st None -> live t ->
  shortest_to task t m ->
  (exists e ops2',
     e ∈ open st /\ path task (state (entry_node e)) ops2' t /\
     g (entry_node e) + length ops2' = m) \/
  (goal_reached task t = false /\ state_cost st !! t = Some m).
Proof.
  intros I Hoc Ht [(ops & P & Hl) Hshort].
  apply (frontier_walk st t m I Hoc Ht Hshort ops [] (initial_state task));
    [done|constructor|done|].
  destruct (inv_cost_min _ _ _ _ I _ (inv_root _ _ _ _ I)) as (c & Hc & Hle).
  simpl in *. rewrite Hc. f_equal. lia.
Qed.

End Frontier.

Lemma can_reach_goal_back task s op s' :
  (op, s') ∈ get_successor_states task s ->
  can_reach_goal task s' -> can_reach_goal task s.
Proof.
  intros Hin (ops & sg & P & Hg). exists (op :: ops), sg.
  split; [by econstructor|done].
Qed.

Lemma shortest_goal task :
  solvable task ->
  exists best sg,
    path task (initial_state task) best sg /\ goal_reached task sg = true /\
    shortest_to task sg (length best) /\
    forall ops, solves task ops -> length best <= length ops.
Proof.
  intros Hs. destruct (shortest_solution task Hs) as (best & (sg & P & Hg) & Hmin).
  exists best, sg. split; [done|]. split; [done|]. split; [|done].
  split; [by exists best|]. intros ops Pops. apply Hmin. by exists sg.
Qed.

(** ** Completeness *)

(** On a solvable task the frontier is never empty at the head of the
    loop, when nothing from which a goal can be reached is pruned. *)
Lemma frontier_never_empty task heuristic
    (mk : SearchNode -> num -> nat -> OpenEntry) n st :
  ordering_policy mk ->
  safe_pruning task heuristic ->
  solvable task ->
  iterate_loop task heuristic mk n (initial_loop_state task heuristic mk)
  = Some st ->
  open st <> [].
Proof.
  intros Hpol Hsafe Hs Hn Ho.
  destruct (shortest_goal task Hs) as (best & sg & P & Hg & Hshort & _).
  destruct (foe_rounds task heuristic mk Hpol (can_reach_goal task) Hsafe
              n _ _ (search_inv_init task heuristic mk Hpol)
              (foe_init task heuristic mk Hpol (can_reach_goal task)) Hn)
    as [I Hoc].
  destruct (frontier_reaches task heuristic mk (can_reach_goal task)
              (can_reach_goal_back task) st sg (length best) I Hoc)
    as [(e & _ & He & _)|[Hng _]]; [|done| |congruence].
  - exists [], sg. split; [constructor|done].
  - rewrite Ho in He. by apply elem_of_nil in He.
Qed.

(** X9: when the heuristic reports [+infinity] only for nodes from whose
    state no goal can be reached, the answer [None] can be trusted: the
    search, with any ordering policy, returns [None] only on a task that
    has no solution. *)
Theorem none_means_unsolvable task heuristic
    (make_open_entry : option (SearchNode -> num -> nat -> OpenEntry))
    (flag : option bool) fuel :
  ordering_policy (default ordered_node_astar make_open_entry) ->
  safe_pruning task heuristic ->
  astar_search fuel task heuristic make_open_entry flag = Some None ->
  ~ solvable task.
Proof.
  intros Hpol Hsafe. unfold astar_search.
  set (mk := default ordered_node_astar make_open_entry) in *.
  intros Hr Hs.
  apply astar_loop_None in Hr as (n & st & _ & Hn & Ho).
  by apply (frontier_never_empty task heuristic mk n st).
Qed.

(** Hence the loop, once entered on a solvable task with a finite reachable
    state space, returns a solution when pruning is safe. *)
Lemma search_loop_complete task heuristic
    (make_open_entry : option (SearchNode -> num -> nat -> OpenEntry))
    (flag : option bool) :
  ordering_policy (default ordered_node_astar make_open_entry) ->
  safe_pruning task heuristic ->
  solvable task ->
  finite_reachable task ->
  exists fuel solution,
    (forall fuel', fuel <= fuel' ->
       astar_search fuel' task heuristic make_open_entry flag
       = Some (Some solution)) /\
    solves task solution.
Proof.
  intros Hpol Hsafe Hs [states Hfin]. unfold astar_search.
  set (mk := default ordered_node_astar make_open_entry) in *.
  destruct (astar_loop_terminates task heuristic mk Hpol states
              (initial_loop_state task heuristic mk) Hfin
              (search_inv_init task heuristic mk Hpol))
    as (fuel & [solution|] & Hr & Hq).
  - exists fuel, solution. split; [|done].
    intros fuel' Hle. by eapply astar_loop_fuel_mono.
  - exfalso.
    apply astar_loop_None in Hr as (n & st & _ & Hn & Ho).
    by apply (frontier_never_empty task heuristic mk n st).
Qed.

(** X10: on a solvable task with a finite reachable state space a call
    returns a solution with every ordering policy, greedy best-first and
    weighted A* included, as long as the heuristic reports [+infinity] only
    where no goal can be reached and its value at the root can be logged
    before the loop ([+infinity] or an integer of a magnitude below
    [2^1024 - 2^970]). *)
Theorem complete_on_finite_tasks task heuristic
    (make_open_entry : option (SearchNode -> num -> nat -> OpenEntry))
    (flag : option bool) :
  ordering_policy (default ordered_node_astar make_open_entry) ->
  safe_pruning task heuristic ->
  solvable task ->
  finite_reachable task ->
  initial_h_fits task heuristic ->
  exists fuel solution,
    (forall fuel', fuel <= fuel' ->
       astar_search_call fuel' task heuristic make_open_entry flag
       = Some (Returned (Some solution))) /\
    solves task solution.
Proof.
  intros Hpol Hsafe Hs Hfin Hfits.
  destruct (search_loop_complete task heuristic make_open_entry flag
              Hpol Hsafe Hs Hfin) as (fuel & solution & Hr & Hsol).
  exists fuel, solution. split; [|done].
  intros fuel' Hle. apply astar_search_call_returned. split; [done|].
  by apply Hr.
Qed.

(** ** Weighted A* *)

Section Weighted.

Variable task : Task.
Variable heuristic : SearchNode -> num.
Variable weight : positive.
Hypothesis Hadm : admissible task heuristic.
Hypothesis Hnn : nonnegative heuristic.
Variables (best : list Operator) (sg : State).
Hypothesis Hpath : path task (initial_state task) best sg.
Hypothesis Hgoal : goal_reached task sg = true.
Hypothesis Hshort : shortest_to task sg (length best).

#[local] Abbreviation mk :=
  (ordered_node_weighted_astar weight : SearchNode -> num -> nat -> OpenEntry).
#[local] Abbreviation inv := (search_inv task heuristic mk).
#[local] Abbreviation foe := (frontier_or_expanded (can_reach_goal task) task).

Lemma weighted_policy : ordering_policy mk.
Proof. done. Qed.

Lemma weighted_frontier_bound st :
  inv st -> foe st None ->
  exists e, e ∈ open st /\
    num_le (entry_f e) (Fin (Z.pos weight * Z.of_nat (length best))).
Proof.
  intros I Hoc.
  destruct (frontier_reaches task heuristic mk (can_reach_goal task)
              (can_reach_goal_back task) st sg (length best) I Hoc)
    as [(e & ops2 & He & P & Hl)|[Hng _]]; [|done| |congruence].
  - exists [], sg. split; [constructor|done].
  - exists e. split; [done|].
    destruct (inv_open _ _ _ _ I _ He) as (_ & _ & Ee). rewrite Ee.
    unfold ordered_node_weighted_astar, entry_f. simpl.
    pose proof (Hadm (entry_node e) ops2 sg P Hgoal) as Ha.
    apply num_le_Fin_inv in Ha as (x & -> & Hx). simpl.
    apply num_le_Fin. nia.
Qed.

Lemma weighted_popped_bound st popped rest :
  inv st -> foe st None ->
  heappop (open st) = Some (popped, rest) ->
  g (entry_node popped) <= Pos.to_nat weight * length best.
Proof.
  intros I Hoc E. destruct (weighted_frontier_bound st I Hoc) as (e & He & Hle).
  pose proof (heappop_min _ _ _ E e He) as Hmin'.
  assert (Hf : num_le (entry_f popped) (entry_f e)).
  { unfold num_le, num_leb. apply negb_true_iff, not_true_is_false.
    intros Hlt. apply not_true_iff_false in Hmin'. apply Hmin'.
    apply entry_ltb_lex. by left. }
  pose proof (num_le_trans _ _ _ Hf Hle) as Hk.
  assert (Hin : popped ∈ open st).
  { rewrite (heappop_perm _ _ _ E). apply list_elem_of_here. }
  destruct (inv_open _ _ _ _ I _ Hin) as (_ & _ & Ee).
  rewrite Ee in Hk. unfold ordered_node_weighted_astar, entry_f in Hk.
  simpl in Hk.
  pose proof (Hnn (entry_node popped)) as Hn.
  destruct (heuristic (entry_node popped)) as [y|]; [|done].
  simpl in Hk. apply num_le_Fin in Hk, Hn.
  apply Nat2Z.inj_le. rewrite Nat2Z.inj_mul, positive_nat_Z. nia.
Qed.

Lemma weighted_loop_bounded :
  exists fuel solution,
    astar_loop task heuristic mk fuel (initial_loop_state task heuristic mk)
    = Some (Some solution) /\
    solves task solution /\
    length solution <= Pos.to_nat weight * length best.
Proof.
  set (st0 := initial_loop_state task heuristic mk).
  pose proof (admissible_finite task heuristic Hadm) as Hlive.
  destruct (loop_terminates task heuristic mk
              (list_to_set
                 (within task (S (Pos.to_nat weight * length best))))
              (fun st => inv st /\ foe st None)
              (fun r => exists solution, r = Some solution /\
                 solves task solution /\
                 length solution <= Pos.to_nat weight * length best))
    with (st := st0) as (fuel & result & Hr & solution & -> & Hs & Hl).
  - intros st [I Hoc] Ho.
    destruct (weighted_frontier_bound st I Hoc) as (e & He & _).
    rewrite Ho in He. by apply elem_of_nil in He.
  - intros st popped rest [I Hoc] E.
    pose proof (weighted_popped_bound st popped rest I Hoc E) as Hk.
    assert (Hin : popped ∈ open st).
    { rewrite (heappop_perm _ _ _ E). apply list_elem_of_here. }
    destruct (inv_open _ _ _ _ I _ Hin) as (Hp & _).
    destruct (inv_pushed_ok _ _ _ _ I _ Hp) as [Pn Ln].
    destruct (loop_body task heuristic mk (set_open st rest) popped)
      as [solution|st'] eqn:Hb.
    + destruct (loop_body_return task heuristic mk _ _ _ _ I E Hb)
        as (-> & _ & _ & _ & Hs).
      exists (extract_solution (entry_node popped)).
      split; [done|]. split; [done|]. lia.
    + split.
      * by eapply (foe_round task heuristic mk weighted_policy
                     (can_reach_goal task) Hlive).
      * eapply loop_body_measure; [done..|].
        destruct (loop_body_cases task heuristic mk (set_open st rest) popped)
          as [(Hst & _)|[(_ & _ & Hy)|_]]; [by left|by rewrite Hb in Hy|].
        right. intros op s Hs. apply elem_of_list_to_set.
        eapply within_succ; [|done]. eapply path_within; [done|lia].
  - split; [apply search_inv_init, weighted_policy|].
    apply foe_init, weighted_policy.
  - eauto.
Qed.

End Weighted.


(** ** A* with a consistent heuristic *)

Lemma shortest_to_exists task s :
  reachable task s -> exists m, shortest_to task s m.
Proof.
  intros [ops0 P0].
  destruct (least_true (fun n => bool_decide (s ∈ within task n))
              (length ops0)) as (m & Hm & Hleast).
  { apply bool_decide_eq_true. by eapply path_within. }
  apply bool_decide_eq_true, within_path in Hm as (ops & P & Hl).
  assert (Hmin : forall ops', path task (initial_state task) ops' s ->
            m <= length ops').
  { intros ops' P'. apply Hleast, bool_decide_eq_true.
    by eapply path_within. }
  exists m. split; [|done]. exists ops. split; [done|].
  specialize (Hmin ops P). lia.
Qed.

Lemma path_consistent task (hs : State -> num) s ops t :
  consistent_on_states task hs -> path task s ops t ->
  num_le (hs s) (num_add (of_nat (length ops)) (hs t)).
Proof.
  intros Hcons. induction 1 as [s|s op s1 ops t Hin _ IH].
  - simpl. destruct (hs s) as [y|]; [|done]. simpl. apply num_le_Fin. lia.
  - specialize (Hcons s op s1 Hin).
    eapply num_le_trans; [exact Hcons|]. simpl length.
    destruct (hs s1) as [x|], (hs t) as [y|]; simpl in *; try done.
    apply num_le_Fin in IH. apply num_le_Fin. lia.
Qed.

(** X12: with the A* ordering and a heuristic that looks at the state only
    and is consistent, a node that passes the staleness check has the least
    [g] that its state can have: no operator sequence leads from the
    initial state to its state with fewer operators. So no state has to be
    expanded again at a lower cost. *)
Theorem consistent_astar_expands_at_shortest task heuristic
    (hs : State -> num) n st popped rest :
  state_based heuristic hs ->
  consistent_on_states task hs ->
  iterate_loop task heuristic ordered_node_astar n
    (initial_loop_state task heuristic ordered_node_astar) = Some st ->
  heappop (open st) = Some (popped, rest) ->
  (forall c, state_cost st !! state (entry_node popped) = Some c ->
     g (entry_node popped) <= c) ->
  shortest_to task (state (entry_node popped)) (g (entry_node popped)).
Proof.
  intros Hsb Hcons Hn E Hfresh.
  set (mk := ordered_node_astar : SearchNode -> num -> nat -> OpenEntry).
  assert (Hpol : ordering_policy mk) by done.
  set (live := fun s => hs s <> Inf).
  assert (Hlive : forall node, live (state node) -> heuristic node <> Inf).
  { intros node. by rewrite Hsb. }
  assert (Hback : forall s op s',
            (op, s') ∈ get_successor_states task s -> live s' -> live s).
  { intros s op s' Hin Hl Hi. specialize (Hcons s op s' Hin).
    rewrite Hi in Hcons. unfold live in Hl. by destruct (hs s'). }
  destruct (foe_rounds task heuristic mk Hpol live Hlive n _ _
              (search_inv_init task heuristic mk Hpol)
              (foe_init task heuristic mk Hpol live) Hn) as [I Hoc].
  assert (Hin : popped ∈ open st).
  { rewrite (heappop_perm _ _ _ E). apply list_elem_of_here. }
  destruct (inv_open _ _ _ _ I _ Hin) as (Hp & _ & Ep).
  destruct (inv_pushed_ok _ _ _ _ I _ Hp) as [Pn Ln].
  set (node := entry_node popped) in *.
  split; [by exists (extract_solution node)|].
  destruct (shortest_to_exists task (state node)) as (m & Hm);
    [by eexists|].
  assert (Hgm : g node <= m); [|intros ops P; destruct Hm as [_ Hm];
                                 specialize (Hm ops P); lia].
  destruct (inv_pushed_gen _ _ _ _ I _ Hp) as [Er|(p & op & _ & _ & Hf)].
  { rewrite Er. simpl. lia. }
  assert (Ht : live (state node)) by (unfold live; by rewrite <- Hsb).
  destruct (frontier_reaches task heuristic mk live Hback st (state node) m
              I Hoc Ht Hm) as [(e & ops2 & He & P2 & Hl)|[_ Hc]].
  - pose proof (heappop_min _ _ _ E e He) as Hmin.
    assert (Hle : num_le (entry_f popped) (entry_f e)).
    { unfold num_le, num_leb. apply negb_true_iff, not_true_is_false.
      intros Hlt. apply not_true_iff_false in Hmin. apply Hmin.
      apply entry_ltb_lex. by left. }
    destruct (inv_open _ _ _ _ I _ He) as (_ & _ & Ee).
    rewrite Ep, Ee in Hle. unfold mk, ordered_node_astar, entry_f in Hle.
    simpl in Hle. fold node in Hle. rewrite !Hsb in Hle.
    pose proof (path_consistent task hs _ _ _ Hcons P2) as Hc.
    unfold live in Ht.
    destruct (hs (state node)) as [y|]; [|done].
    destruct (hs (state (entry_node e))) as [x|]; [|done].
    simpl in Hle, Hc. apply num_le_Fin in Hle, Hc. lia.
  - by apply Hfresh.
Qed.

(** ** The way of a solution *)

Lemma node_simple_point task heuristic
    (make_open_entry : SearchNode -> num -> nat -> OpenEntry) c st :
  ordering_policy make_open_entry ->
  exec_point task heuristic make_open_entry c ->
  config_state c = Some st ->
  forall node, node ∈ pushed st -> node_simple task st node.
Proof.
  intros Hpol.
  apply (exec_point_state_ind task heuristic make_open_entry
           (fun st => forall node, node ∈ pushed st ->
                        node_simple task st node)); [done| | |].
  - unfold initial_loop_state. simpl.
    set (root := make_root_node (initial_state task)).
    destruct (Hpol root (heuristic root) 0) as (_ & _ & ->).
    intros node ->%list_elem_of_singleton.
    split; [constructor|]. split; [done|]. split; [done|].
    split; [apply NoDup_singleton|].
    intros s ->%list_elem_of_singleton. exists 0.
    split; [apply lookup_singleton_eq|done].
  - intros st0 st' Ec _ Ep _ HJ node Hn. rewrite Ep in Hn.
    unfold node_simple. rewrite Ec. by apply HJ.
  - intros st0 p op s I Hp Hin HJ.
    destruct (expand_successor_cases heuristic make_open_entry
                p (g p) st0 op s) as [[-> _]|(_ & Hw & ->)]; [done|].
    set (child := make_child_node p op s).
    destruct (Hpol child (heuristic child) (node_tiebreaker st0 + 1))
      as (_ & _ & En).
    simpl. rewrite En.
    assert (Hlower : forall s0 k, state_cost st0 !! s0 = Some k ->
              exists k', <[s := g p + 1]> (state_cost st0) !! s0 = Some k' /\
                         k' <= k).
    { intros s0 k Hk. destruct (decide (s = s0)) as [->|Hne].
      - rewrite lookup_insert_eq. eexists. split; [done|].
        destruct Hw as [?|(k1 & ? & ?)]; [congruence|].
        assert (k1 = k) by congruence. lia.
      - rewrite lookup_insert_ne by done. eauto. }
    intros node [->|Hn]%elem_of_cons.
    + destruct (HJ p Hp) as (Hwalk & Hhd & Hlast & Hnd & Hcost).
      unfold node_simple. simpl.
      split; [by eapply walk_step|].
      split; [by destruct (visited p)|].
      split; [by rewrite last_snoc|].
      split.
      * apply NoDup_app. split; [done|]. split; [|apply NoDup_singleton].
        intros s0 Hs0 ->%list_elem_of_singleton.
        destruct (Hcost _ Hs0) as (k & Hk & Hle).
        destruct Hw as [?|(k1 & ? & ?)]; [congruence|].
        assert (k1 = k) by congruence. lia.
      * intros s0 [Hs0|Hs0]%elem_of_app.
        -- destruct (Hcost _ Hs0) as (k & Hk & Hle).
           destruct (Hlower _ _ Hk) as (k' & Hk' & Hle').
           exists k'. split; [done|]. lia.
        -- apply list_elem_of_singleton in Hs0 as ->.
           rewrite lookup_insert_eq. eauto.
    + destruct (HJ node Hn) as (Hwalk & Hhd & Hlast & Hnd & Hcost).
      unfold node_simple. simpl. do 4 (split; [done|]).
      intros s0 Hs0. destruct (Hcost _ Hs0) as (k & Hk & Hle).
      destruct (Hlower _ _ Hk) as (k' & Hk' & Hle').
      exists k'. split; [done|]. lia.
Qed.

(** X13: a returned solution never comes back to a state: its operators
    lead from the initial state to a goal state through states that are
    pairwise different. *)
Theorem returned_solution_is_simple task heuristic
    (make_open_entry : option (SearchNode -> num -> nat -> OpenEntry))
    (flag : option bool) fuel solution :
  ordering_policy (default ordered_node_astar make_open_entry) ->
  astar_search fuel task heuristic make_open_entry flag
  = Some (Some solution) ->
  exists states sg,
    walk task states solution /\
    head states = Some (initial_state task) /\
    last states = Some sg /\ goal_reached task sg = true /\
    NoDup states.
Proof.
  intros Hpol. unfold astar_search.
  set (mk := default ordered_node_astar make_open_entry) in *.
  intros Hr.
  apply astar_loop_Some in Hr as (n & st & popped & rest & _ & Hn & E & Hb).
  pose proof (search_inv_rounds task heuristic mk Hpol n _ _
                (search_inv_init task heuristic mk Hpol) Hn) as I.
  destruct (loop_body_return task heuristic mk _ _ _ _ I E Hb)
    as (-> & Hp & _ & Hg & _).
  assert (Hpt : exec_point task heuristic mk (AtHead st)).
  { by apply exec_iterate_loop in Hn. }
  destruct (node_simple_point task heuristic mk _ st Hpol Hpt eq_refl _ Hp)
    as (Hwalk & Hhd & Hlast & Hnd & _).
  by exists (visited (entry_node popped)), (state (entry_node popped)).
Qed.

(** ** Which node is expanded next *)

Lemma popped_least_key task heuristic
    (make_open_entry : SearchNode -> num -> nat -> OpenEntry) st least rest :
  ordering_policy make_open_entry ->
  exec_point task heuristic make_open_entry (AtHead st) ->
  heappop (open st) = Some (least, rest) ->
  forall e, e ∈ open st ->
    num_le
      (entry_f (make_open_entry (entry_node least)
                  (heuristic (entry_node least)) (entry_tie least)))
      (entry_f (make_open_entry (entry_node e)
                  (heuristic (entry_node e)) (entry_tie e))).
Proof.
  intros Hpol Hpt E e He.
  pose proof (config_inv_point _ _ _ _ Hpol Hpt) as I. simpl in I.
  assert (Hin : least ∈ open st).
  { rewrite (heappop_perm _ _ _ E). apply list_elem_of_here. }
  destruct (inv_open _ _ _ _ I _ Hin) as (_ & _ & <-).
  destruct (inv_open _ _ _ _ I _ He) as (_ & _ & <-).
  pose proof (heappop_min _ _ _ E e He) as Hmin.
  unfold num_le, num_leb. apply negb_true_iff, not_true_is_false.
  intros Hlt. apply not_true_iff_false in Hmin. apply Hmin.
  apply entry_ltb_lex. by left.
Qed.

(** X14: greedy best-first search pops, in every round, a node whose
    heuristic value is the least among the nodes of the frontier, whatever
    their costs [g]. *)
Theorem greedy_pops_least_h task heuristic st least rest :
  exec_point task heuristic ordered_node_greedy_best_first (AtHead st) ->
  heappop (open st) = Some (least, rest) ->
  forall e, e ∈ open st ->
    num_le (heuristic (entry_node least)) (heuristic (entry_node e)).
Proof.
  intros Hpt E e He.
  by apply (popped_least_key task heuristic ordered_node_greedy_best_first
              st least rest).
Qed.

(** X15: weighted A* pops, in every round, a node whose [g + weight * h]
    is the least among the nodes of the frontier. *)
Theorem weighted_pops_least_f task heuristic (weight : positive)
    st least rest :
  exec_point task heuristic (ordered_node_weighted_astar weight)
    (AtHead st) ->
  heappop (open st) = Some (least, rest) ->
  forall e, e ∈ open st ->
    num_le
      (num_add (of_nat (g (entry_node least)))
         (num_scale weight (heuristic (entry_node least))))
      (num_add (of_nat (g (entry_node e)))
         (num_scale weight (heuristic (entry_node e)))).
Proof.
  intros Hpt E e He.
  by apply (popped_least_key task heuristic
              (ordered_node_weighted_astar weight) st least rest).
Qed.

End Further.

(** * Instances of the further properties *)

Lemma astar_policy_nat :
  ordering_policy (State := nat) (Operator := nat) ordered_node_astar.
Proof. done. Qed.

Lemma greedy_policy_nat :
  ordering_policy (State := nat) (Operator := nat)
    ordered_node_greedy_best_first.
Proof. done. Qed.

Lemma returned_solution_solves_witness : solves chain_task [0; 1; 2].
Proof.
  apply (returned_solution_solves chain_task chain_h None None 10 [0; 1; 2]).
  - exact astar_policy_nat.
  - by vm_compute.
Defined.



Lemma costs_are_path_lengths_witness :
  (forall s k, state_cost detour_state !! s = Some k ->
     exists ops, path detour_task 0 ops s /\ length ops = k) /\
  (forall e, e ∈ open detour_state ->
     path detour_task 0 (extract_solution (entry_node e))
       (state (entry_node e)) /\
     length (extract_solution (entry_node e)) = g (entry_node e) /\
     exists k, state_cost detour_state !! state (entry_node e) = Some k /\
               k <= g (entry_node e)).
Proof.
  apply (costs_are_path_lengths detour_task detour_h
           ordered_node_greedy_best_first (AtHead detour_state) detour_state).
  - exact greedy_policy_nat.
  - exact detour_state_point.
  - reflexivity.
Defined.

Lemma counters_invariant_witness :
  counter detour_state = expansions detour_state /\
  expansions detour_state + length (open detour_state)
  <= length (pushed detour_state) /\
  node_tiebreaker detour_state + 1 = length (pushed detour_state).
Proof.
  apply (counters_invariant detour_task detour_h
           ordered_node_greedy_best_first (AtHead detour_state)).
  exact detour_state_point.
Defined.

(** In [detour_state] the two entries for state [3] have the same key and
    the same [h]; the one with the tiebreaker 4 goes before the one with the
    tiebreaker 5. *)
Lemma equal_keys_first_in_first_out_witness :
  exists least rest,
    heappop (open detour_state) = Some (least, rest) /\
    forall e, e ∈ rest ->
      entry_f e = entry_f least -> entry_h e = entry_h least ->
      entry_tie least < entry_tie e.
Proof.
  destruct (heappop (open detour_state)) as [[least rest]|] eqn:E;
    [|by vm_compute in E].
  exists least, rest. split; [done|].
  apply (equal_keys_first_in_first_out detour_task detour_h
           ordered_node_greedy_best_first detour_state least rest).
  - exact greedy_policy_nat.
  - exact detour_state_point.
  - exact E.
Defined.

(** In [detour_state] the last two pushes were for state [3]: first at the
    cost 3, then at the cost 2. *)
Lemma repeated_push_is_cheaper_witness :
  exists later earlier,
    pushed detour_state !! 0 = Some later /\
    pushed detour_state !! 1 = Some earlier /\
    state later = state earlier /\
    g later < g earlier.
Proof.
  destruct (pushed detour_state !! 0) as [later|] eqn:E0;
    [|by vm_compute in E0].
  destruct (pushed detour_state !! 1) as [earlier|] eqn:E1;
    [|by vm_compute in E1].
  exists later, earlier. split; [done|]. split; [done|].
  assert (Es : state later = state earlier).
  { vm_compute in E0, E1. injection E0 as <-. by injection E1 as <-. }
  split; [done|].
  apply (repeated_push_is_cheaper detour_task detour_h
           ordered_node_greedy_best_first (AtHead detour_state) detour_state
           greedy_policy_nat detour_state_point eq_refl 0 1 later earlier);
    [lia|done..].
Defined.

Lemma zero_h_safe task : safe_pruning task zero_h.
Proof. intros node _. done. Qed.

Lemma none_means_unsolvable_witness : ~ solvable stuck_task.
Proof.
  apply (none_means_unsolvable stuck_task zero_h None None 10).
  - exact astar_policy_nat.
  - apply zero_h_safe.
  - by vm_compute.
Defined.

Lemma detour_solves : solves detour_task [50; 53; 13].
Proof.
  exists 4. split; [|done].
  econstructor; [apply list_elem_of_further, list_elem_of_here|].
  econstructor; [apply list_elem_of_here|].
  econstructor; [apply list_elem_of_here|]. constructor.
Qed.

Lemma detour_h_safe : safe_pruning detour_task detour_h.
Proof.
  intros node _. unfold detour_h.
  by destruct (state node) as [|[|[|[|[|[|?]]]]]].
Qed.

Lemma complete_on_finite_tasks_witness :
  exists fuel solution,
    (forall fuel', fuel <= fuel' ->
       astar_search_call fuel' detour_task detour_h
         (Some ordered_node_greedy_best_first) None
       = Some (Returned (Some solution))) /\
    solves detour_task solution.
Proof.
  apply (complete_on_finite_tasks detour_task detour_h
           (Some ordered_node_greedy_best_first) None).
  - exact greedy_policy_nat.
  - exact detour_h_safe.
  - exists [50; 53; 13]. exact detour_solves.
  - exact detour_finite.
  - reflexivity.
Defined.


Lemma chain_hs_consistent : consistent_on_states chain_task chain_hs.
Proof.
  intros s op s' Hin. cbn [chain_task get_successor_states] in Hin.
  unfold chain_hs. simpl.
  destruct (Nat.ltb_spec s 3); [|by apply elem_of_nil in Hin].
  apply list_elem_of_singleton in Hin as [= -> ->].
  apply num_le_Fin. lia.
Qed.

(** After the first round of A* on the chain the node for state [1] is on
    top; its [g] is 1, the least number of operators that lead to state
    [1]. *)
Lemma consistent_astar_expands_at_shortest_witness :
  shortest_to chain_task 1 1.
Proof.
  destruct (heappop (open chain_state)) as [[popped rest]|] eqn:E;
    [|by vm_compute in E].
  pose proof (consistent_astar_expands_at_shortest chain_task chain_h
                chain_hs 1 chain_state popped rest) as Hthm.
  vm_compute in E. injection E as <- <-. apply Hthm.
  - intros node. reflexivity.
  - exact chain_hs_consistent.
  - reflexivity.
  - reflexivity.
  - intros c Hc. vm_compute in Hc. injection Hc as <-. simpl. lia.
Defined.

Lemma returned_solution_is_simple_witness :
  exists states sg,
    walk detour_task states [50; 53; 13] /\
    head states = Some 0 /\
    last states = Some sg /\ goal_reached detour_task sg = true /\
    NoDup states.
Proof.
  apply (returned_solution_is_simple detour_task detour_h
           (Some ordered_node_greedy_best_first) None 20 [50; 53; 13]).
  - exact greedy_policy_nat.
  - by vm_compute.
Defined.

(** In [detour_state] the popped node has the heuristic value 3, as has the
    other node of the frontier. *)
Lemma greedy_pops_least_h_witness :
  exists least rest,
    heappop (open detour_state) = Some (least, rest) /\
    forall e, e ∈ open detour_state ->
      num_le (detour_h (entry_node least)) (detour_h (entry_node e)).
Proof.
  destruct (heappop (open detour_state)) as [[least rest]|] eqn:E;
    [|by vm_compute in E].
  exists least, rest. split; [done|].
  apply (greedy_pops_least_h detour_task detour_h detour_state least rest).
  - exact detour_state_point.
  - exact E.
Defined.

Lemma weighted_state_point :
  exec_point detour_task detour_h (ordered_node_weighted_astar 5)
    (AtHead weighted_state).
Proof. apply (exec_steps_rtc _ _ _ 4). by vm_compute. Qed.

(** In [weighted_state] the frontier holds the nodes for the states [1]
    (key [1 + 5 * 1]) and [5] (key [1 + 5 * 2]). *)
Lemma weighted_pops_least_f_witness :
  exists least rest,
    heappop (open weighted_state) = Some (least, rest) /\
    state (entry_node least) = 1 /\
    forall e, e ∈ open weighted_state ->
      num_le
        (num_add (of_nat (g (entry_node least)))
           (num_scale 5 (detour_h (entry_node least))))
        (num_add (of_nat (g (entry_node e)))
           (num_scale 5 (detour_h (entry_node e)))).
Proof.
  destruct (heappop (open weighted_state)) as [[least rest]|] eqn:E;
    [|by vm_compute in E].
  exists least, rest. split; [done|]. split.
  - vm_compute in E. by injection E as <- _.
  - apply (weighted_pops_least_f detour_task detour_h 5 weighted_state
             least rest).
    + exact weighted_state_point.
    + exact E.
Defined.
